(** * BTC address graph: fetcher, edge extractor and crawler

    A shallow embedding of [BTC_Addresses_Graph.py].

    - Python [float] is IEEE 754 binary64: it is Rocq's primitive [float],
      so every weight below is the very number the program computes,
      roundings included.
    - Python [int] is unbounded: [Z].  Counts, depths and list lengths are
      [nat].
    - [dict]/[defaultdict] are [gmap], [set] is [gset], [deque] and [list]
      are [list].
    - An exception is a [Raise] in the [result] monad.
    - The ledger service is a parameter: the [n]-th HTTP request of a run and
      its parameters determine the response, with no other assumption.
    - [time.sleep] has no effect on any value and is left out. *)

From Stdlib Require Import Floats ZArith QArith.
From stdpp Require Import gmap strings list fin_maps.

Set Warnings "-inexact-float,-clear-no-such-hyp".

Abbreviation address := string.

(** ** Python runtime: exceptions and numbers *)

Inductive exn : Type :=
  | RequestException   (* SESSION.get: connection error or timeout *)
  | HTTPError          (* resp.raise_for_status() *)
  | JSONDecodeError    (* resp.json() *)
  | OverflowError      (* int too large to convert to float *)
  | IndexError.        (* pop from an empty deque *)

Inductive result (A : Type) : Type :=
  | Ok (a : A)
  | Raise (e : exn).
Arguments Ok {A} a.
Arguments Raise {A} e.

#[global] Instance result_ret : MRet result := fun A a => Ok a.
#[global] Instance result_bind : MBind result := fun A B k r =>
  match r with
  | Ok a => k a
  | Raise e => Raise e
  end.

(** [for x in l: body] over a state [s], where the body may raise. *)
Fixpoint for_each {A S : Type} (l : list A) (body : A -> S -> result S) (s : S)
  : result S :=
  match l with
  | [] => Ok s
  | x :: l' => s' ← body x s; for_each l' body s'
  end.

(** [float(z)] for an [int] [z]: round to nearest, ties to even; an [int]
    that rounds beyond the largest double raises [OverflowError]. *)
Definition float_of_int (z : Z) : result float :=
  match binary_normalize prec emax z 0 false with
  | S754_infinity _ => Raise OverflowError
  | f => Ok (SF2Prim f)
  end.

(** [float(len(l))]: a list holds fewer than 2^63 items, far below the range
    of a double, so this conversion cannot raise. *)
Definition float_of_len (n : nat) : float :=
  SF2Prim (binary_normalize prec emax (Z.of_nat n) 0 false).

(** [z / y] for an [int] [z] and a [float] [y]. *)
Definition int_truediv (z : Z) (y : float) : result float :=
  x ← float_of_int z; Ok (x / y)%float.

(** [x > 0] on floats. *)
Definition positive_float (x : float) : bool := (0 <? x)%float.

(** [not l] for a list [l]. *)
Definition is_empty {A : Type} (l : list A) : bool :=
  match l with
  | [] => true
  | _ :: _ => false
  end.

(** The rational number a finite double stands for. *)
Definition exact (x : float) : Q :=
  match Prim2SF x with
  | S754_finite s m e =>
      (inject_Z (if s then Z.neg m else Z.pos m) * Qpower 2 e)%Q
  | _ => 0%Q
  end.

(** [acc = 0.0; for w in ws: acc += w]. *)
Definition fsum (ws : list float) : float := fold_left PrimFloat.add ws 0%float.

(** [d[k]] of a [defaultdict(float)]. *)
Definition dd_get `{Countable K} (d : gmap K float) (k : K) : float :=
  default 0%float (d !! k).

(** [d[k] += w] on a [defaultdict(float)]. *)
Definition dd_add `{Countable K} (k : K) (w : float) (d : gmap K float)
  : gmap K float :=
  <[k := (dd_get d k + w)%float]> d.

(** ** Data model: the JSON the ledger service returns *)

(** The records are the JSON objects of the service with every field of
    its JSON type: ["inputs"] and ["out"] are lists of objects or missing,
    ["prev_out"] is an object, [null] or missing, ["addr"] is a string,
    [null] or missing, ["value"] is an integer, [null] or missing.  A body
    that is not of this shape ([null] or a number under ["inputs"] or
    ["out"], a [null] list item, a string under ["value"]) has no value
    here; on such a body the extractor raises [TypeError] or
    [AttributeError], which this development does not model. *)

(** An output object; each key may be missing (or [null]). *)
Record output : Type := {
  addr : option address;
  value : option Z
}.

Record input : Type := {
  prev_out : option output
}.

Record tx : Type := {
  inputs : option (list input);
  out : option (list output)
}.

(** A weighted edge [(u, v, w)]. *)
Definition edge : Type := address * address * float.

(** [if a:] for [a] a string or [None]. *)
Definition truthy (a : option address) : option address :=
  match a with
  | Some s => if decide (s = "") then None else Some s
  | None => None
  end.

(** ** Edge extractor *)

(** Lines 47-49: one input. *)
Definition input_step (inputs : list address) (i : input) : list address :=
  let prev := default {| addr := None; value := None |} (prev_out i) in
  let a := addr prev in
  match truthy a with
  | Some a => inputs ++ [a]
  | None => inputs
  end.

(** Lines 45-49: the resolvable input addresses of [t], in order. *)
Definition tx_inputs (t : tx) : list address :=
  fold_left input_step (default [] (inputs t)) [].

(** Lines 53-56: one output. *)
Definition output_step (o : output) (outs : list (address * float))
  : result (list (address * float)) :=
  let a := addr o in
  val_btc ← int_truediv (default 0%Z (value o)) 1e8;
  match truthy a with
  | Some a =>
      if positive_float val_btc then Ok (outs ++ [(a, val_btc)]) else Ok outs
  | None => Ok outs
  end.

(** Lines 51-56: the resolvable outputs of [t] with their value in BTC. *)
Definition tx_outs (t : tx) : result (list (address * float)) :=
  for_each (default [] (out t)) output_step [].

(** Lines 61-65: the edges of one transaction appended to [edges]. *)
Definition attribute (inputs : list address) (outs : list (address * float))
    (edges : list edge) : list edge :=
  let denom := max 1 (length inputs) in
  fold_left
    (fun edges in_a =>
       fold_left
         (fun edges '(out_a, val) =>
            let w := (val / float_of_len denom)%float in
            edges ++ [(in_a, out_a, w)])
         outs edges)
    inputs edges.

(** Lines 45-65: one transaction. *)
Definition tx_step (t : tx) (edges : list edge) : result (list edge) :=
  let inputs := tx_inputs t in
  outs ← tx_outs t;
  if is_empty inputs || is_empty outs then Ok edges
  else Ok (attribute inputs outs edges).

Definition address_edges_from_txs (txs : list tx) : result (list edge) :=
  for_each txs tx_step [].

(** ** Histories of the two tables *)

(** The updates [edge_w[(u, v)] += w] that a list of edges causes, in order. *)
Definition edge_postings (es : list edge)
  : list ((address * address) * float) :=
  map (fun e => ((e.1.1, e.1.2), e.2)) es.

(** The updates [node_amount[u] += w; node_amount[v] += w], in order. *)
Definition node_postings (es : list edge) : list (address * float) :=
  flat_map (fun e => [(e.1.1, e.2); (e.1.2, e.2)]) es.

(** [for k, w in ps: d[k] += w]. *)
Definition dd_add_all `{Countable K} (ps : list (K * float))
    (d : gmap K float) : gmap K float :=
  fold_left (fun d p => dd_add p.1 p.2 d) ps d.

(** The weights posted to key [k], in order. *)
Definition posted `{Countable K} (k : K) (ps : list (K * float)) : list float :=
  omap (fun p => if decide (p.1 = k) then Some p.2 else None) ps.

(** The weights attributed to the pair [(u, v)] by the edges [es]. *)
Definition pair_weights (u v : address) (es : list edge) : list float :=
  posted (u, v) (edge_postings es).

(** The weights attributed to the address [a] by the edges [es]: one for
    each edge leaving [a] and one for each edge entering [a]. *)
Definition node_weights (a : address) (es : list edge) : list float :=
  posted a (node_postings es).

(** The entry of a [defaultdict(float)] that received the weights [ws]. *)
Definition dd_sum (ws : list float) : option float :=
  match ws with
  | [] => None
  | _ :: _ => Some (fsum ws)
  end.

(** The ordered pairs of [edge_w] incident to [a]: those that leave [a],
    then those that enter [a]; a pair from [a] to itself is on both sides. *)
Definition incident (a : address) (edge_w : gmap (address * address) float)
  : list (address * address) :=
  filter (fun p => p.1 = a) (map_to_list edge_w).*1
  ++ filter (fun p => p.2 = a) (map_to_list edge_w).*1.

(** The weights posted to any of the keys [ks], in order. *)
Definition posted_in `{Countable K} (ks : list K) (ps : list (K * float))
  : list float :=
  omap (fun p => if decide (p.1 ∈ ks) then Some p.2 else None) ps.

(** ** Ledger query service *)

(** The query parameters of one GET on [rawaddr/{address}]. *)
Record request : Type := {
  req_address : address;
  req_limit : nat;
  req_offset : nat
}.

(** What one GET yields: an exception out of [SESSION.get],
    [raise_for_status] or [resp.json()], or the decoded body, of which only
    the key ["txs"] is read (it may be missing). *)
Inductive response : Type :=
  | Fails (e : exn)
  | Body (txs : option (list tx)).

(** The service: the response to the [n]-th request of the run. *)
Definition network : Type := nat -> request -> response.

(** ** Transaction fetcher *)

Section Fetcher.
Variable net : network.

(** The [while] loop of lines 24-35 and the [return] of line 36.  [http]
    is the list of requests sent so far; [None] means the loop is still
    running when [fuel] iterations are spent. *)
Fixpoint fetch_loop (fuel : nat) (address : address) (limit max_txs : nat)
    (txs : list tx) (offset : nat) (http : list request)
  : option (result (list tx)) * list request :=
  match fuel with
  | 0 => (None, http)
  | S fuel' =>
      if bool_decide (length txs < max_txs) then
        let params :=
          {| req_address := address; req_limit := limit;
             req_offset := offset |} in
        match net (length http) params with
        | Fails e => (Some (Raise e), http ++ [params])
        | Body data =>
            let batch := default [] data in
            let txs := txs ++ batch in
            if bool_decide (length batch < limit) then
              (Some (Ok (take max_txs txs)), http ++ [params])
            else
              fetch_loop fuel' address limit max_txs txs (offset + limit)
                (http ++ [params])
        end
      else (Some (Ok (take max_txs txs)), http)
  end.

Definition fetch_txs_blockchain_info (fuel : nat) (address : address)
    (limit_each max_txs : nat) (http : list request)
  : option (result (list tx)) * list request :=
  fetch_loop fuel address (min limit_each 50) max_txs [] 0 http.
End Fetcher.

(** The pages of one fetch, for stating what it requests: the [i]-th request
    of a fetch with page size [limit], the response to it when [n0] requests
    were sent before the fetch began, the records of a response, whether a
    response is a full page, and the records of the first [k] pages. *)
Definition nth_request (address : address) (limit i : nat) : request :=
  {| req_address := address; req_limit := limit; req_offset := i * limit |}.

Definition page (net : network) (n0 : nat) (address : address) (limit i : nat)
  : response :=
  net (n0 + i) (nth_request address limit i).

Definition batch_of (r : response) : list tx :=
  match r with
  | Body data => default [] data
  | Fails _ => []
  end.

Definition full_page (limit : nat) (r : response) : Prop :=
  match r with
  | Body data => limit <= length (default [] data)
  | Fails _ => False
  end.

Fixpoint received (net : network) (n0 : nat) (address : address)
    (limit k : nat) : list tx :=
  match k with
  | 0 => []
  | S k' =>
      received net n0 address limit k' ++ batch_of (page net n0 address limit k')
  end.

(** Request [i] is sent only when it is needed: fewer than [max_txs] records
    have come and every earlier page was full. *)
Definition needed (net : network) (n0 : nat) (address : address)
    (limit max_txs i : nat) : Prop :=
  length (received net n0 address limit i) < max_txs
  /\ forall j, j < i -> full_page limit (page net n0 address limit j).

(** How a fetch that sent [k] requests ends: it returns the first [max_txs]
    of the records received, and either [max_txs] were reached or the last
    page was short; or the last request failed and its exception is raised. *)
Definition ends (net : network) (n0 : nat) (address : address)
    (limit max_txs k : nat) (r : result (list tx)) : Prop :=
  match r with
  | Ok txs =>
      txs = take max_txs (received net n0 address limit k)
      /\ length txs <= max_txs
      /\ (max_txs <= length (received net n0 address limit k)
          \/ exists k' data,
               k = S k' /\ page net n0 address limit k' = Body data
               /\ length (default [] data) < limit)
  | Raise e => exists k', k = S k' /\ page net n0 address limit k' = Fails e
  end.

(** The requests that name the address [a], in the order they were sent. *)
Definition requests_of (a : address) (http : list request) : list request :=
  filter (fun r => req_address r = a) http.

(** ** The graph: the part of [networkx.DiGraph] the crawler uses *)

Record DiGraph : Type := {
  nodes : gset address;
  edges : gmap (address * address) float
}.

Definition empty_graph : DiGraph := {| nodes := ∅; edges := ∅ |}.

Definition add_node (n : address) (G : DiGraph) : DiGraph :=
  {| nodes := {[n]} ∪ nodes G; edges := edges G |}.

Definition has_node (n : address) (G : DiGraph) : bool :=
  bool_decide (n ∈ nodes G).

(** [G.add_edge(u, v, weight=w)]: adds both endpoints, sets the weight. *)
Definition add_edge (u v : address) (w : float) (G : DiGraph) : DiGraph :=
  {| nodes := {[v]} ∪ ({[u]} ∪ nodes G); edges := <[(u, v) := w]> (edges G) |}.

(** [len(G)]: the number of nodes. *)
Definition len (G : DiGraph) : nat := size (nodes G).

(** ** Graph crawler *)

Record config : Type := {
  MAX_DEPTH : nat;
  MAX_TX_PER_ADDRESS : nat;
  MAX_NODES : nat
}.

(** Lines 10-12. *)
Definition default_config : config :=
  {| MAX_DEPTH := 2; MAX_TX_PER_ADDRESS := 50; MAX_NODES := 5000 |}.

(** The order in which [for nb in neigh_to_enqueue] visits a [set]: Python
    fixes none, so any enumeration of the elements is allowed. *)
Record set_order : Type := {
  iter : gset address -> list address;
  iter_perm : forall s, iter s ≡ₚ elements s
}.

Definition elements_order : set_order :=
  {| iter := elements; iter_perm := fun s => reflexivity (elements s) |}.

(** The variables of [crawl_graph], the requests sent and the warnings
    printed so far, and two histories: the addresses passed to the fetcher
    and the edges the extractor returned, both in order. *)
Record state : Type := {
  G : DiGraph;
  visited : gset address;
  q : list (address * nat);
  edge_w : gmap (address * address) float;
  node_amount : gmap address float;
  http : list request;
  stdout : list (address * exn);
  fetched : list address;
  extracted : list edge
}.

(** Lines 73-78. *)
Definition init (seed_address : address) : state :=
  {| G := empty_graph; visited := ∅; q := [(seed_address, 0)];
     edge_w := ∅; node_amount := ∅;
     http := []; stdout := []; fetched := []; extracted := [] |}.

Section Crawler.
Variable cfg : config.
Variable net : network.
Variable order : set_order.

(** Line 80: [while q and len(G) < MAX_NODES]. *)
Definition guard (st : state) : bool :=
  negb (is_empty (q st)) && bool_decide (len (G st) < MAX_NODES cfg).

(** Lines 99-105, one edge. *)
Definition tally (depth : nat) (e : edge)
    (acc : gmap (address * address) float * gmap address float * gset address)
  : gmap (address * address) float * gmap address float * gset address :=
  let '(u, v, w) := e in
  let '(edge_w, node_amount, neigh_to_enqueue) := acc in
  let edge_w := dd_add (u, v) w edge_w in
  let node_amount := dd_add u w node_amount in
  let node_amount := dd_add v w node_amount in
  let neigh_to_enqueue :=
    if bool_decide (depth < MAX_DEPTH cfg) then {[v]} ∪ neigh_to_enqueue
    else neigh_to_enqueue in
  (edge_w, node_amount, neigh_to_enqueue).

(** What the loop of lines 99-105 leaves in [neigh_to_enqueue]. *)
Definition neighbours (depth : nat) (es : list edge) : gset address :=
  if bool_decide (depth < MAX_DEPTH cfg)
  then list_to_set (map (fun e => e.1.2) es)
  else ∅.

(** Lines 108-113: every accumulated pair is written into the graph. *)
Definition write_edges (edge_w : gmap (address * address) float)
    (G : DiGraph) : DiGraph :=
  fold_left
    (fun G '((u, v), w) =>
       let G := if has_node u G then G else add_node u G in
       let G := if has_node v G then G else add_node v G in
       add_edge u v w G)
    (map_to_list edge_w) G.

(** Lines 116-118. *)
Definition enqueue (G : DiGraph) (visited : gset address) (depth : nat)
    (neigh_to_enqueue : gset address) (q : list (address * nat))
  : list (address * nat) :=
  fold_left
    (fun q nb =>
       if bool_decide (nb ∉ visited) && bool_decide (len G < MAX_NODES cfg)
       then q ++ [(nb, depth + 1)]
       else q)
    (iter order neigh_to_enqueue) q.

(** Line 83: the address was visited before. *)
Definition skipped (st : state) (q : list (address * nat)) : state :=
  {| G := G st; visited := visited st; q := q;
     edge_w := edge_w st; node_amount := node_amount st;
     http := http st; stdout := stdout st;
     fetched := fetched st; extracted := extracted st |}.

(** Lines 84-85 and 90-92: the fetch raised [e]. *)
Definition fetch_failed (st : state) (addr : address)
    (q : list (address * nat)) (http : list request) (e : exn) : state :=
  {| G := add_node addr (G st); visited := {[addr]} ∪ visited st; q := q;
     edge_w := edge_w st; node_amount := node_amount st;
     http := http; stdout := stdout st ++ [(addr, e)];
     fetched := fetched st ++ [addr]; extracted := extracted st |}.

(** Lines 84-85 and 97-118: the fetch returned and [edges] were extracted. *)
Definition expanded (st : state) (addr : address) (depth : nat)
    (q : list (address * nat)) (http : list request) (edges : list edge)
  : state :=
  let visited := {[addr]} ∪ visited st in
  let G := add_node addr (G st) in
  let '(edge_w, node_amount, neigh_to_enqueue) :=
    fold_left (fun acc e => tally depth e acc) edges
      (edge_w st, node_amount st, ∅) in
  let G := write_edges edge_w G in
  let q := enqueue G visited depth neigh_to_enqueue q in
  {| G := G; visited := visited; q := q;
     edge_w := edge_w; node_amount := node_amount;
     http := http; stdout := stdout st;
     fetched := fetched st ++ [addr];
     extracted := extracted st ++ edges |}.

(** Lines 81-120: one iteration of the loop.  [None]: the fetcher did not
    finish within its fuel; [Some (Raise e)]: [e] leaves [crawl_graph]. *)
Definition step (st : state) : option (result state) :=
  match q st with
  | [] => Some (Raise IndexError)
  | (addr, depth) :: q =>
      if bool_decide (addr ∈ visited st) then Some (Ok (skipped st q))
      else
        match fetch_txs_blockchain_info net (S (MAX_TX_PER_ADDRESS cfg))
                addr 50 (MAX_TX_PER_ADDRESS cfg) (http st) with
        | (None, _) => None
        | (Some (Raise e), http) => Some (Ok (fetch_failed st addr q http e))
        | (Some (Ok txs), http) =>
            match address_edges_from_txs txs with
            | Raise e => Some (Raise e)
            | Ok edges => Some (Ok (expanded st addr depth q http edges))
            end
        end
  end.

(** The state after [n] iterations, if the loop runs that long. *)
Fixpoint crawl_steps (n : nat) (st : state) : option state :=
  match n with
  | 0 => Some st
  | S n' =>
      if guard st then
        match step st with
        | Some (Ok st') => crawl_steps n' st'
        | _ => None
        end
      else None
  end.

(** The loop of line 80 run to its end, within [fuel] iterations. *)
Fixpoint crawl_loop (fuel : nat) (st : state) : option (result state) :=
  if guard st then
    match fuel with
    | 0 => None
    | S fuel' =>
        match step st with
        | Some (Ok st') => crawl_loop fuel' st'
        | Some (Raise e) => Some (Raise e)
        | None => None
        end
    end
  else Some (Ok st).

(** [crawl_graph(seed_address)]: the graph and the two tables of line 122. *)
Definition crawl_graph (fuel : nat) (seed_address : address)
  : option (result (DiGraph * (gmap address float
                               * gmap (address * address) float))) :=
  match crawl_loop fuel (init seed_address) with
  | Some (Ok st) => Some (Ok (G st, (node_amount st, edge_w st)))
  | Some (Raise e) => Some (Raise e)
  | None => None
  end.

(** *** Invariants of the loop *)

(** Visited addresses are nodes, and are exactly the addresses that were
    passed to the fetcher, each once. *)
Definition visited_inv (st : state) : Prop :=
  visited st ⊆ nodes (G st)
  /\ (forall a, a ∈ fetched st <-> a ∈ visited st)
  /\ NoDup (fetched st).

(** No entry of the frontier is deeper than [MAX_DEPTH]. *)
Definition depth_inv (st : state) : Prop :=
  Forall (fun e => e.2 <= MAX_DEPTH cfg) (q st).

(** Both tables hold the sums of the weights attributed so far, and the
    graph has the edges of [edge_w]. *)
Definition tables_inv (st : state) : Prop :=
  (forall u v, edge_w st !! (u, v) = dd_sum (pair_weights u v (extracted st)))
  /\ (forall a, node_amount st !! a = dd_sum (node_weights a (extracted st)))
  /\ edges (G st) = edge_w st.

(** Both endpoints of every edge of the graph are nodes. *)
Definition graph_inv (st : state) : Prop :=
  forall u v,
    is_Some (edges (G st) !! (u, v)) -> u ∈ nodes (G st) /\ v ∈ nodes (G st).
End Crawler.

(** ** Concrete transactions used in the examples *)

Definition mk_in (a : address) : input :=
  {| prev_out := Some {| addr := Some a; value := None |} |}.

Definition mk_out (a : address) (satoshi : Z) : output :=
  {| addr := Some a; value := Some satoshi |}.

(** Inputs {A, D}, one output (B, 2.0). *)
Definition tx_AD_B : tx :=
  {| inputs := Some [mk_in "A"; mk_in "D"];
     out := Some [mk_out "B" 200000000] |}.

(** Inputs {A, C, D}, one output (B, 0.9). *)
Definition tx_ACD_B : tx :=
  {| inputs := Some [mk_in "A"; mk_in "C"; mk_in "D"];
     out := Some [mk_out "B" 90000000] |}.

(** Inputs {A}, outputs (B, 1.0) and (C, 0.5). *)
Definition tx_A_BC : tx :=
  {| inputs := Some [mk_in "A"];
     out := Some [mk_out "B" 100000000; mk_out "C" 50000000] |}.

(** A service that knows one transaction of A, [tx_A_BC], and none of any
    other address. *)
Definition ledger_ABC : network :=
  fun _ r =>
    if decide (req_address r = "A") then Body (Some [tx_A_BC])
    else Body (Some []).

(** A service that lists [tx_A_BC] for A and for B, as a ledger does for
    both ends of a transaction, and nothing for any other address. *)
Definition ledger_shared : network :=
  fun _ r =>
    if decide (req_address r = "A" \/ req_address r = "B")
    then Body (Some [tx_A_BC])
    else Body (Some []).

(** A service that knows two transactions of A: inputs {A} with outputs
    (B, 0.3) and (C, 0.1), then inputs {A} with output (B, 0.2). *)
Definition ledger_rounding : network :=
  fun _ r =>
    if decide (req_address r = "A") then
      Body (Some [ {| inputs := Some [mk_in "A"];
                      out := Some [mk_out "B" 30000000; mk_out "C" 10000000] |};
                   {| inputs := Some [mk_in "A"];
                      out := Some [mk_out "B" 20000000] |} ])
    else Body (Some []).

(** A service that serves the transactions [all] of any address in pages,
    as asked. *)
Definition ledger_paged (all : list tx) : network :=
  fun _ r => Body (Some (take (req_limit r) (drop (req_offset r) all))).

(** A service that cannot be reached. *)
Definition ledger_down : network := fun _ _ => Fails RequestException.

(** The default parameters with no expansion beyond the seed. *)
Definition depth_zero : config :=
  {| MAX_DEPTH := 0; MAX_TX_PER_ADDRESS := 50; MAX_NODES := 5000 |}.

(** The default parameters with a cap of two nodes. *)
Definition two_nodes : config :=
  {| MAX_DEPTH := 2; MAX_TX_PER_ADDRESS := 50; MAX_NODES := 2 |}.

(** A transaction with an input without [prev_out], an input whose
    [prev_out] has no [addr], and an output without [value]. *)
Definition tx_sparse : tx :=
  {| inputs := Some ([{| prev_out := None |}]
                     ++ {| prev_out := Some {| addr := None; value := Some 7%Z |} |}
                     :: [mk_in "A"]);
     out := Some ([mk_out "B" 5] ++ {| addr := Some "C"; value := None |} :: []) |}.

(** ** Drawing: which edges are drawn *)

(** [l[::step]] for [step >= 1], with [skip] items still to pass over: the
    items at the indices [skip], [skip + step], [skip + 2 * step], ... *)
Fixpoint stride {A : Type} (step skip : nat) (l : list A) : list A :=
  match l with
  | [] => []
  | x :: l' =>
      match skip with
      | 0 => x :: stride step (step - 1) l'
      | S skip' => stride step skip' l'
      end
  end.

(** The 8000 of lines 140-141. *)
Definition draw_threshold : nat := 8 * 1000.

(** Lines 139-142 of [draw_graph]: the edges handed to the drawing call. *)
Definition sampled_edges {A : Type} (edges : list A) : list A :=
  if bool_decide (draw_threshold < length edges) then
    let step := max 1 (length edges / draw_threshold) in
    stride step 0 edges
  else edges.

(** ** More concrete inputs *)

(** One output whose value, 2^1024 satoshi, is beyond the doubles. *)
Definition tx_huge : tx :=
  {| inputs := Some [mk_in "A"]; out := Some [mk_out "B" (2 ^ 1024)] |}.

(** No resolvable input, and one output whose value is beyond the doubles. *)
Definition tx_no_input_huge : tx :=
  {| inputs := Some [{| prev_out := None |}];
     out := Some [mk_out "B" (2 ^ 1024)] |}.

(** A service that lists [tx_huge] for every address. *)
Definition ledger_huge : network := fun _ _ => Body (Some [tx_huge]).

(** A transaction without ["inputs"] and without ["out"]. *)
Definition tx_blank : tx := {| inputs := None; out := None |}.

(** Up to 120 transactions per address, that is three pages, and no
    expansion beyond the seed. *)
Definition three_pages : config :=
  {| MAX_DEPTH := 0; MAX_TX_PER_ADDRESS := 120; MAX_NODES := 5000 |}.

(** A service that answers every request with an empty page. *)
Definition ledger_empty : network := fun _ _ => Body (Some []).

(** ** The extractor, loop by loop *)

Section ExtractorFacts.

Lemma for_each_app {A S : Type} (body : A -> S -> result S) l1 l2 s :
  for_each (l1 ++ l2) body s = s' ← for_each l1 body s; for_each l2 body s'.
Proof.
  revert s. induction l1 as [|x l1 IH]; intros s; simpl; [done|].
  destruct (body x s) as [s'|e]; simpl; [apply IH | done].
Qed.

(** An item whose body leaves the state alone can be removed. *)
Lemma for_each_skip {A S : Type} (body : A -> S -> result S) l1 x l2 s :
  (forall s', body x s' = Ok s') ->
  for_each (l1 ++ x :: l2) body s = for_each (l1 ++ l2) body s.
Proof.
  intros Hx. rewrite !for_each_app.
  destruct (for_each l1 body s) as [s'|e]; simpl; [|done].
  by rewrite Hx.
Qed.

Lemma tx_inputs_fold (l : list input) (acc : list address) :
  fold_left input_step l acc
  = acc ++ omap (fun i => truthy (prev_out i ≫= addr)) l.
Proof.
  revert acc. induction l as [|i l IH]; intros acc; simpl.
  - by rewrite app_nil_r.
  - rewrite IH. unfold input_step. destruct i as [[[a v]|]]; simpl; [|done].
    destruct (truthy a); simpl; [|done]. by rewrite <- app_assoc.
Qed.

(** The inputs kept are those whose [prev_out] has a non-empty [addr]. *)
Lemma tx_inputs_spec (t : tx) :
  tx_inputs t
  = omap (fun i => truthy (prev_out i ≫= addr)) (default [] (inputs t)).
Proof. unfold tx_inputs. by rewrite tx_inputs_fold. Qed.

Lemma attribute_inner in_a d (outs : list (address * float)) (acc : list edge) :
  fold_left
    (fun edges '(out_a, val) =>
       let w := (val / float_of_len d)%float in edges ++ [(in_a, out_a, w)])
    outs acc
  = acc ++ map (fun o => (in_a, o.1, (o.2 / float_of_len d)%float)) outs.
Proof.
  revert acc. induction outs as [|[out_a val] outs IH]; intros acc; simpl.
  - by rewrite app_nil_r.
  - rewrite IH. by rewrite <- app_assoc.
Qed.

Lemma attribute_outer d (ins : list address) (outs : list (address * float))
    (acc : list edge) :
  fold_left
    (fun edges in_a =>
       fold_left
         (fun edges '(out_a, val) =>
            let w := (val / float_of_len d)%float in
            edges ++ [(in_a, out_a, w)])
         outs edges)
    ins acc
  = acc ++ flat_map
             (fun in_a =>
                map (fun o => (in_a, o.1, (o.2 / float_of_len d)%float)) outs)
             ins.
Proof.
  revert acc. induction ins as [|in_a ins IH]; intros acc; simpl.
  - by rewrite app_nil_r.
  - rewrite IH, attribute_inner. by rewrite <- app_assoc.
Qed.

(** One edge per (input, output) pair, inputs outermost. *)
Lemma attribute_spec ins outs acc :
  attribute ins outs acc
  = acc ++ flat_map
             (fun in_a =>
                map (fun o => (in_a, o.1,
                               (o.2 / float_of_len (max 1 (length ins)))%float))
                    outs)
             ins.
Proof. unfold attribute. apply attribute_outer. Qed.

(** What the extractor does with one transaction. *)
Lemma address_edges_from_txs_one (t : tx) :
  address_edges_from_txs [t]
  = outs ← tx_outs t;
    if is_empty (tx_inputs t) || is_empty outs then Ok []
    else Ok (attribute (tx_inputs t) outs []).
Proof.
  unfold address_edges_from_txs, tx_step; simpl.
  destruct (tx_outs t) as [outs|e]; simpl; [|done].
  by destruct (is_empty (tx_inputs t) || is_empty outs).
Qed.

(** One output raises, is dropped, or is kept with a positive value. *)
Lemma output_step_cases o outs :
  (exists e, output_step o outs = Raise e)
  \/ output_step o outs = Ok outs
  \/ (exists a v, positive_float v = true
                 /\ output_step o outs = Ok (outs ++ [(a, v)])).
Proof.
  unfold output_step.
  destruct (int_truediv (default 0%Z (value o)) 1e8) as [val|e]; simpl;
    [|by eauto].
  destruct (truthy (addr o)) as [a|]; [|by auto].
  destruct (positive_float val) eqn:Hval; [|by auto].
  right; right. by exists a, val.
Qed.

(** The outputs kept have a positive value. *)
Lemma output_step_positive os acc r :
  Forall (fun o => positive_float o.2 = true) acc ->
  for_each os output_step acc = Ok r ->
  Forall (fun o => positive_float o.2 = true) r.
Proof.
  revert acc. induction os as [|o os IH]; intros acc Hacc; cbn [for_each].
  - by intros [= <-].
  - destruct (output_step_cases o acc) as [[e ->] | [-> | (a & v & Hv & ->)]];
      simpl; [done | by apply IH |].
    apply IH. apply Forall_app; split; [done|]. by constructor.
Qed.

(** An output without a value, or of value zero, changes nothing. *)
Lemma output_step_zero o outs :
  default 0%Z (value o) = 0%Z -> output_step o outs = Ok outs.
Proof.
  intros Hv. unfold output_step. rewrite Hv. simpl.
  by destruct (truthy (addr o)).
Qed.

Lemma for_each_total {A S : Type} (body : A -> S -> result S) (l : list A) :
  Forall (fun x => forall s, exists s', body x s = Ok s') l ->
  forall s, exists s', for_each l body s = Ok s'.
Proof.
  induction 1 as [|x l Hx _ IH]; intros s; simpl; [by eauto|].
  destruct (Hx s) as [s' ->]. simpl. apply IH.
Qed.

End ExtractorFacts.

(** ** The fetcher *)

Section FetcherFacts.
Variable net : network.
Variable address : address.
Variable limit max_txs : nat.
Variable http0 : list request.
Hypothesis limit_pos : 0 < limit.

Local Abbreviation pg := (page net (length http0) address limit).
Local Abbreviation got := (received net (length http0) address limit).
Local Abbreviation sent k :=
  (http0 ++ map (nth_request address limit) (seq 0 k)).
Local Abbreviation needed := (needed net (length http0) address limit max_txs).
Local Abbreviation ends := (ends net (length http0) address limit max_txs).

Lemma received_full j :
  (forall i, i < j -> full_page limit (pg i)) -> j * limit <= length (got j).
Proof.
  induction j as [|j IH]; intros Hfull; [simpl; lia|].
  cbn [received]. rewrite length_app.
  assert (Hj := Hfull j (Nat.lt_succ_diag_r j)).
  specialize (IH (fun i Hi => Hfull i (Nat.lt_lt_succ_r _ _ Hi))).
  unfold full_page in Hj.
  destruct (pg j); simpl; [done | lia].
Qed.

Lemma sent_length k : length (sent k) = length http0 + k.
Proof. by rewrite length_app, length_map, length_seq. Qed.

Lemma sent_S k : sent k ++ [nth_request address limit k] = sent (S k).
Proof. by rewrite seq_S, map_app, app_assoc. Qed.

Lemma fetch_loop_spec fuel j :
  max_txs < fuel + j ->
  (forall i, i < j -> needed i /\ full_page limit (pg i)) ->
  exists k r,
    fetch_loop net fuel address limit max_txs (got j) (j * limit) (sent j)
    = (Some r, sent k)
    /\ (forall i, i < k -> needed i) /\ ends k r.
Proof.
  revert j. induction fuel as [|fuel IH]; intros j Hfuel Hinv.
  - exfalso. destruct j as [|j]; [lia|].
    destruct (Hinv j (Nat.lt_succ_diag_r j)) as [[Hlt Hfull] _].
    apply received_full in Hfull. nia.
  - assert (Hfull : forall i, i < j -> full_page limit (pg i))
      by (intros i Hi; apply Hinv, Hi).
    cbn [fetch_loop]. case_bool_decide as Hlen.
    + rewrite sent_length.
      change (net (length http0 + j)
                {| req_address := address; req_limit := limit;
                   req_offset := j * limit |}) with (pg j).
      change {| req_address := address; req_limit := limit;
                req_offset := j * limit |}
        with (nth_request address limit j).
      assert (Hnext : forall i, i < S j -> needed i).
      { intros i Hi. destruct (decide (i = j)) as [-> | Hne].
        - split; [done | exact Hfull].
        - apply Hinv. lia. }
      destruct (pg j) as [e | data] eqn:Hpg.
      * exists (S j), (Raise e). rewrite sent_S.
        split; [done|]. split; [done|]. by exists j.
      * assert (Hgot : got j ++ default [] data = got (S j)).
        { cbn [received]. by rewrite Hpg. }
        rewrite Hgot. case_bool_decide as Hshort.
        -- exists (S j), (Ok (take max_txs (got (S j)))). rewrite sent_S.
           split; [done|]. split; [done|].
           split; [done|]. split; [rewrite length_take; lia|].
           right. by exists j, data.
        -- rewrite sent_S.
           replace (j * limit + limit) with (S j * limit) by lia.
           apply IH; [lia|].
           intros i Hi. split; [by apply Hnext|].
           destruct (decide (i = j)) as [-> | Hne]; [|apply Hfull; lia].
           rewrite Hpg. simpl. lia.
    + exists j, (Ok (take max_txs (got j))).
      split; [done|]. split; [intros i Hi; by apply Hinv|].
      split; [done|]. split; [rewrite length_take; lia|]. left. lia.
Qed.

End FetcherFacts.

(** ** Accumulation in a [defaultdict(float)] *)

Section Accumulation.
Context `{Countable K}.
Implicit Types (d : gmap K float) (ps : list (K * float)) (k : K).

Lemma dd_add_all_app ps1 ps2 d :
  dd_add_all (ps1 ++ ps2) d = dd_add_all ps2 (dd_add_all ps1 d).
Proof. unfold dd_add_all. apply fold_left_app. Qed.

Lemma posted_app k ps1 ps2 : posted k (ps1 ++ ps2) = posted k ps1 ++ posted k ps2.
Proof. unfold posted. apply omap_app. Qed.

Lemma posted_cons k k' w ps :
  posted k ((k', w) :: ps)
  = if decide (k' = k) then w :: posted k ps else posted k ps.
Proof. unfold posted; simpl. by destruct (decide (k' = k)). Qed.

(** After the updates [ps], the entry of [k] is untouched if no weight
    was posted to [k], and else the old entry (0.0 if missing) plus the
    posted weights, added one by one. *)
Lemma dd_add_all_lookup ps d k :
  dd_add_all ps d !! k
  = match posted k ps with
    | [] => d !! k
    | ws => Some (fold_left PrimFloat.add ws (dd_get d k))
    end.
Proof.
  revert d. induction ps as [|[k' w] ps IH]; intros d; [done|].
  change (dd_add_all ((k', w) :: ps) d) with (dd_add_all ps (dd_add k' w d)).
  rewrite IH, posted_cons. unfold dd_add, dd_get.
  destruct (decide (k' = k)) as [-> | Hne].
  - rewrite lookup_insert_eq. simpl. by destruct (posted k ps).
  - by rewrite lookup_insert_ne.
Qed.

(** A table that holds the sums of a history keeps doing so. *)
Lemma dd_add_all_sum ps hist d k :
  d !! k = dd_sum (posted k hist) ->
  dd_add_all ps d !! k = dd_sum (posted k (hist ++ ps)).
Proof.
  intros Hd. rewrite dd_add_all_lookup, posted_app.
  assert (Hget : dd_get d k = fsum (posted k hist)).
  { unfold dd_get. rewrite Hd. by destruct (posted k hist). }
  destruct (posted k ps) as [|w ws] eqn:Hps.
  - by rewrite app_nil_r.
  - rewrite Hget. unfold fsum. rewrite <- fold_left_app.
    by destruct (posted k hist).
Qed.

Lemma dd_sum_get d k ws : d !! k = dd_sum ws -> dd_get d k = fsum ws.
Proof. intros Hd. unfold dd_get. rewrite Hd. by destruct ws. Qed.

Lemma dd_add_all_dom ps d k : dd_add_all ps d !! k = None -> d !! k = None.
Proof. rewrite dd_add_all_lookup. by destruct (posted k ps). Qed.

End Accumulation.

(** ** The crawler, path by path *)

Section CrawlerFacts.
Variable cfg : config.
Variable net : network.
Variable order : set_order.

Local Abbreviation step := (step cfg net order).
Local Abbreviation guard := (guard cfg).
Local Abbreviation crawl_steps := (crawl_steps cfg net order).
Local Abbreviation crawl_loop := (crawl_loop cfg net order).
Local Abbreviation expanded := (expanded cfg order).
Local Abbreviation neighbours := (neighbours cfg).
Local Abbreviation depth_inv := (depth_inv cfg).

Lemma tally_fold depth es m1 m2 (s : gset address) :
  fold_left (fun acc e => tally cfg depth e acc) es (m1, m2, s)
  = (dd_add_all (edge_postings es) m1,
     dd_add_all (node_postings es) m2,
     s ∪ neighbours depth es).
Proof.
  revert m1 m2 s. induction es as [|[[u v] w] es IH]; intros m1 m2 s.
  - simpl. f_equal. unfold neighbours. case_bool_decide; set_solver.
  - cbn [fold_left]. unfold tally at 2. rewrite IH.
    f_equal. unfold neighbours.
    case_bool_decide; simpl; set_solver.
Qed.

(** The fields of the state after an expansion. *)
Lemma expanded_eq st addr depth q0 http' es :
  expanded st addr depth q0 http' es
  = let edge_w' := dd_add_all (edge_postings es) (edge_w st) in
    let G' := write_edges edge_w' (add_node addr (G st)) in
    {| G := G'; visited := {[addr]} ∪ visited st;
       q := enqueue cfg order G' ({[addr]} ∪ visited st) depth
              (∅ ∪ neighbours depth es) q0;
       edge_w := edge_w';
       node_amount := dd_add_all (node_postings es) (node_amount st);
       http := http'; stdout := stdout st;
       fetched := fetched st ++ [addr];
       extracted := extracted st ++ es |}.
Proof. unfold expanded. by rewrite tally_fold. Qed.

(** ** Writing the table into the graph *)

Lemma write_edges_fold_nodes (l : list ((address * address) * float)) G0 :
  nodes G0 ⊆ nodes
    (fold_left
       (fun G '((u, v), w) =>
          let G := if has_node u G then G else add_node u G in
          let G := if has_node v G then G else add_node v G in
          add_edge u v w G) l G0).
Proof.
  revert G0. induction l as [|[[u v] w] l IH]; intros G0; [done|].
  cbn [fold_left]. etrans; [|apply IH].
  destruct (has_node u G0), (has_node v _); simpl; set_solver.
Qed.

Lemma write_edges_nodes m G0 : nodes G0 ⊆ nodes (write_edges m G0).
Proof. apply write_edges_fold_nodes. Qed.

Lemma write_edges_fold_edges (l : list ((address * address) * float)) G0 k :
  NoDup l.*1 ->
  edges
    (fold_left
       (fun G '((u, v), w) =>
          let G := if has_node u G then G else add_node u G in
          let G := if has_node v G then G else add_node v G in
          add_edge u v w G) l G0) !! k
  = match (list_to_map l : gmap (address * address) float) !! k with
    | Some w => Some w
    | None => edges G0 !! k
    end.
Proof.
  revert G0. induction l as [|[[u v] w] l IH]; intros G0 Hnd; [done|].
  apply NoDup_cons in Hnd as [Hfresh Hnd].
  cbn [fold_left]. rewrite IH by done. cbn [list_to_map foldr].
  assert (Hedges : forall G1, edges (add_edge u v w G1) = <[(u, v) := w]> (edges G1))
    by done.
  assert (Hkeep : edges (if has_node v (if has_node u G0 then G0 else add_node u G0)
                         then (if has_node u G0 then G0 else add_node u G0)
                         else add_node v (if has_node u G0 then G0 else add_node u G0))
                  = edges G0).
  { by destruct (has_node u G0), (has_node v _). }
  rewrite Hedges, Hkeep.
  destruct (decide ((u, v) = k)) as [<- | Hne].
  - rewrite !lookup_insert_eq.
    by rewrite (not_elem_of_list_to_map_1 _ _ Hfresh).
  - by rewrite !lookup_insert_ne.
Qed.

(** Every pair of the table becomes an edge of that weight; the other
    edges stay. *)
Lemma write_edges_edges m G0 : edges (write_edges m G0) = m ∪ edges G0.
Proof.
  apply map_eq; intros k. unfold write_edges.
  rewrite write_edges_fold_edges by apply NoDup_fst_map_to_list.
  rewrite list_to_map_to_list, lookup_union.
  by destruct (m !! k), (edges G0 !! k).
Qed.

(** ** Enqueuing *)

Lemma enqueue_fold G0 (vis : gset address) depth (l : list address) q0 :
  exists new,
    fold_left
      (fun q nb =>
         if bool_decide (nb ∉ vis) && bool_decide (len G0 < MAX_NODES cfg)
         then q ++ [(nb, depth + 1)] else q) l q0
    = q0 ++ new
    /\ Forall (fun e => (e.1 ∈ l) /\ (e.1 ∉ vis) /\ e.2 = depth + 1
                        /\ len G0 < MAX_NODES cfg) new.
Proof.
  revert q0. induction l as [|nb l IH]; intros q0.
  - exists []. by rewrite app_nil_r.
  - cbn [fold_left].
    destruct (IH (if bool_decide (nb ∉ vis) && bool_decide (len G0 < MAX_NODES cfg)
                  then q0 ++ [(nb, depth + 1)] else q0)) as (new & -> & Hnew).
    assert (Hnew' : Forall (fun e : address * nat =>
                              (e.1 ∈ nb :: l) /\ (e.1 ∉ vis) /\ e.2 = depth + 1
                              /\ len G0 < MAX_NODES cfg) new).
    { eapply Forall_impl; [exact Hnew|]. intros e (? & ? & ? & ?).
      repeat split; try done. apply elem_of_cons. by right. }
    destruct (bool_decide (nb ∉ vis)) eqn:Hvis;
      [destruct (bool_decide (len G0 < MAX_NODES cfg)) eqn:Hcap|]; simpl.
    + exists ((nb, depth + 1) :: new). rewrite <- app_assoc. split; [done|].
      constructor; [|done]. simpl.
      apply bool_decide_eq_true in Hvis, Hcap.
      repeat split; try done. apply elem_of_cons. by left.
    + by exists new.
    + by exists new.
Qed.

(** The queue grows at its end, by neighbours that are not visited, at
    the next depth, and only while the graph is below the cap. *)
Lemma enqueue_spec G0 vis depth (s : gset address) q0 :
  exists new,
    enqueue cfg order G0 vis depth s q0 = q0 ++ new
    /\ Forall (fun e => (e.1 ∈ s) /\ (e.1 ∉ vis) /\ e.2 = depth + 1
                        /\ len G0 < MAX_NODES cfg) new.
Proof.
  destruct (enqueue_fold G0 vis depth (iter order s) q0) as (new & Heq & Hnew).
  exists new. split; [exact Heq|].
  eapply Forall_impl; [exact Hnew|]. intros e (Hin & ? & ? & ?).
  repeat split; try done.
  rewrite (iter_perm order s) in Hin. by apply elem_of_elements in Hin.
Qed.

Lemma neighbours_depth depth es a :
  a ∈ neighbours depth es -> depth < MAX_DEPTH cfg.
Proof.
  unfold neighbours. case_bool_decide; [done | set_solver].
Qed.

(** ** One iteration *)

(** With page size 50 the fetcher finishes within its fuel. *)
Lemma fetch_total addr http0 :
  exists r http',
    fetch_txs_blockchain_info net (S (MAX_TX_PER_ADDRESS cfg)) addr 50
      (MAX_TX_PER_ADDRESS cfg) http0 = (Some r, http').
Proof.
  destruct (fetch_loop_spec net addr 50 (MAX_TX_PER_ADDRESS cfg) http0)
    with (fuel := S (MAX_TX_PER_ADDRESS cfg)) (j := 0)
    as (k & r & Hrun & _); [lia | lia | intros; lia |].
  cbn [received seq map Nat.mul] in Hrun. rewrite app_nil_r in Hrun.
  by exists r, (http0 ++ map (nth_request addr 50) (seq 0 k)).
Qed.

(** The three ways an iteration goes on. *)
Lemma step_inv st st' :
  step st = Some (Ok st') ->
  exists addr depth q0,
    q st = (addr, depth) :: q0
    /\ (((addr ∈ visited st) /\ st' = skipped st q0)
        \/ ((addr ∉ visited st)
            /\ exists http' e,
                fetch_txs_blockchain_info net (S (MAX_TX_PER_ADDRESS cfg))
                  addr 50 (MAX_TX_PER_ADDRESS cfg) (http st)
                = (Some (Raise e), http')
                /\ st' = fetch_failed st addr q0 http' e)
        \/ ((addr ∉ visited st)
            /\ exists http' txs es,
                fetch_txs_blockchain_info net (S (MAX_TX_PER_ADDRESS cfg))
                  addr 50 (MAX_TX_PER_ADDRESS cfg) (http st)
                = (Some (Ok txs), http')
                /\ address_edges_from_txs txs = Ok es
                /\ st' = expanded st addr depth q0 http' es)).
Proof.
  unfold step.
  destruct (q st) as [|[addr depth] q0]; [done|].
  intros Hstep. exists addr, depth, q0. split; [done|].
  case_bool_decide as Hvis.
  - left. by injection Hstep as <-.
  - right.
    destruct (fetch_txs_blockchain_info _ _ _ _ _ _) as [[[txs|e]|] http'];
      [|left|done].
    + right. split; [done|].
      destruct (address_edges_from_txs txs) as [es|e] eqn:Hes; [|done].
      injection Hstep as <-. by exists http', txs, es.
    + split; [done|]. injection Hstep as <-. by exists http', e.
Qed.

(** An iteration never runs out of fuel. *)
Lemma step_total st : exists r, step st = Some r.
Proof.
  unfold step.
  destruct (q st) as [|[addr depth] q0]; [by eauto|].
  case_bool_decide; [by eauto|].
  destruct (fetch_total addr (http st)) as (r & http' & ->).
  destruct r as [txs|e]; [|by eauto].
  destruct (address_edges_from_txs txs); by eauto.
Qed.

(** A property that every iteration keeps holds all along the crawl. *)
Lemma crawl_steps_invariant (P : state -> Prop) :
  (forall st st', P st -> guard st = true -> step st = Some (Ok st') -> P st') ->
  forall n st st', P st -> crawl_steps n st = Some st' -> P st'.
Proof.
  intros Hkeep. induction n as [|n IH]; intros st st' HP; simpl.
  - by intros [= <-].
  - destruct (guard st) eqn:Hguard; [|done].
    destruct (step st) as [[st1|e]|] eqn:Hstep; [|done|done].
    apply IH. by apply (Hkeep st).
Qed.

(** The state the loop ends in is the state after some number of
    iterations, and the loop condition fails there. *)
Lemma crawl_loop_steps fuel st st' :
  crawl_loop fuel st = Some (Ok st') ->
  exists n, n <= fuel /\ crawl_steps n st = Some st' /\ guard st' = false.
Proof.
  revert st. induction fuel as [|fuel IH]; intros st; simpl.
  - destruct (guard st) eqn:Hguard; [done|].
    intros [= <-]. exists 0. by simpl.
  - destruct (guard st) eqn:Hguard.
    + destruct (step st) as [[st1|e]|] eqn:Hstep; [|done|done].
      intros Hloop. destruct (IH st1 Hloop) as (n & Hn & Hsteps & Hend).
      exists (S n). split; [lia|]. simpl. by rewrite Hguard, Hstep.
    + intros [= <-]. exists 0. split; [lia|]. by simpl.
Qed.

(** ** The invariants hold at the start and are kept *)

Lemma visited_inv_init seed : visited_inv (init seed).
Proof.
  split; [done|]. split; [|constructor].
  intros a; simpl. split; [by intros ?%elem_of_nil | set_solver].
Qed.

Lemma visited_inv_add (vis nds nds' : gset address) (fet : list address) addr :
  vis ⊆ nds -> (forall a, a ∈ fet <-> a ∈ vis) -> NoDup fet ->
  addr ∉ vis -> {[addr]} ∪ nds ⊆ nds' ->
  {[addr]} ∪ vis ⊆ nds'
  /\ (forall a, a ∈ fet ++ [addr] <-> a ∈ {[addr]} ∪ vis)
  /\ NoDup (fet ++ [addr]).
Proof.
  intros Hsub Hfet Hnd Hfresh Hnds. split; [set_solver|]. split.
  - intros a. rewrite elem_of_app, list_elem_of_singleton, Hfet. set_solver.
  - apply NoDup_app. split; [done|]. split; [|apply NoDup_singleton].
    intros a Ha ->%list_elem_of_singleton. by apply Hfresh, Hfet.
Qed.

Lemma visited_inv_step st st' :
  visited_inv st -> step st = Some (Ok st') -> visited_inv st'.
Proof.
  intros (Hsub & Hfet & Hnd) Hstep.
  destruct (step_inv st st' Hstep) as (addr & depth & q0 & Hq & Hcase).
  destruct Hcase as [[Hvis ->] | [(Hvis & http' & e & _ & ->)
                                 | (Hvis & http' & txs & es & _ & _ & ->)]].
  - done.
  - by apply visited_inv_add with (nds := nodes (G st)).
  - rewrite expanded_eq. cbv zeta. unfold visited_inv.
    cbn [G visited fetched].
    apply visited_inv_add with (nds := nodes (G st)); try done.
    apply (write_edges_nodes _ (add_node addr (G st))).
Qed.

Lemma depth_inv_init seed : depth_inv (init seed).
Proof. constructor; [simpl; lia | constructor]. Qed.

(** What an iteration does to the frontier: the head goes, and the new
    entries, if any, are unvisited destinations at the next depth, which
    is at most [MAX_DEPTH]. *)
Lemma step_queue st st' :
  step st = Some (Ok st') ->
  exists addr depth q0 new,
    q st = (addr, depth) :: q0 /\ q st' = q0 ++ new
    /\ Forall (fun e => (e.1 ∉ visited st') /\ e.2 = depth + 1
                        /\ depth < MAX_DEPTH cfg
                        /\ len (G st') < MAX_NODES cfg) new.
Proof.
  intros Hstep.
  destruct (step_inv st st' Hstep) as (addr & depth & q0 & Hq & Hcase).
  exists addr, depth, q0.
  destruct Hcase as [[Hvis ->] | [(Hvis & http' & e & _ & ->)
                                 | (Hvis & http' & txs & es & _ & _ & ->)]].
  - exists []. by rewrite app_nil_r.
  - exists []. by rewrite app_nil_r.
  - rewrite expanded_eq. cbv zeta. cbn [q visited G].
    destruct (enqueue_spec
                (write_edges (dd_add_all (edge_postings es) (edge_w st))
                   (add_node addr (G st)))
                ({[addr]} ∪ visited st) depth (∅ ∪ neighbours depth es) q0)
      as (new & -> & Hnew).
    exists new. split; [done|]. split; [done|].
    eapply Forall_impl; [exact Hnew|]. intros e (Hin & ? & ? & ?).
    repeat split; try done.
    apply (neighbours_depth depth es e.1). set_solver.
Qed.

Lemma depth_inv_step st st' :
  depth_inv st -> step st = Some (Ok st') -> depth_inv st'.
Proof.
  unfold depth_inv. intros Hinv Hstep.
  destruct (step_queue st st' Hstep) as (addr & depth & q0 & new & Hq & -> & Hnew).
  rewrite Hq in Hinv. apply Forall_cons in Hinv as [_ Hinv].
  apply Forall_app. split; [done|].
  eapply Forall_impl; [exact Hnew|]. intros e (_ & ? & ? & _). simpl. lia.
Qed.

Lemma tables_inv_init seed : tables_inv (init seed).
Proof. by repeat split. Qed.

Lemma tables_inv_step st st' :
  tables_inv st -> step st = Some (Ok st') -> tables_inv st'.
Proof.
  intros (Hew & Hna & Hedges) Hstep.
  destruct (step_inv st st' Hstep) as (addr & depth & q0 & Hq & Hcase).
  destruct Hcase as [[Hvis ->] | [(Hvis & http' & e & _ & ->)
                                 | (Hvis & http' & txs & es & _ & _ & ->)]].
  - done.
  - done.
  - rewrite expanded_eq. cbv zeta. unfold tables_inv.
    cbn [G edge_w node_amount extracted].
    split; [|split].
    + intros u v. unfold pair_weights, edge_postings. rewrite map_app.
      apply dd_add_all_sum. apply Hew.
    + intros a. unfold node_weights, node_postings. rewrite flat_map_app.
      apply dd_add_all_sum. apply Hna.
    + rewrite write_edges_edges. cbn [add_node edges]. rewrite Hedges.
      apply map_eq; intros k. rewrite lookup_union.
      destruct (dd_add_all (edge_postings es) (edge_w st) !! k) eqn:Hk; simpl.
      * by destruct (edge_w st !! k).
      * by rewrite (dd_add_all_dom _ _ _ Hk).
Qed.

Lemma graph_inv_init seed : graph_inv (init seed).
Proof.
  intros u v [w Hw]. change (edges (G (init seed))) with (∅ : gmap (address * address) float) in Hw.
  by rewrite lookup_empty in Hw.
Qed.

Lemma write_edges_fold_endpoints (l : list ((address * address) * float)) G0 :
  (forall u v, is_Some (edges G0 !! (u, v)) -> u ∈ nodes G0 /\ v ∈ nodes G0) ->
  forall u v,
    is_Some
      (edges
         (fold_left
            (fun G '((u, v), w) =>
               let G := if has_node u G then G else add_node u G in
               let G := if has_node v G then G else add_node v G in
               add_edge u v w G) l G0) !! (u, v)) ->
    u ∈ nodes
          (fold_left
             (fun G '((u, v), w) =>
                let G := if has_node u G then G else add_node u G in
                let G := if has_node v G then G else add_node v G in
                add_edge u v w G) l G0)
    /\ v ∈ nodes
            (fold_left
               (fun G '((u, v), w) =>
                  let G := if has_node u G then G else add_node u G in
                  let G := if has_node v G then G else add_node v G in
                  add_edge u v w G) l G0).
Proof.
  revert G0. induction l as [|[[u0 v0] w0] l IH]; intros G0 Hwf; [done|].
  cbn [fold_left]. apply IH. intros u v.
  assert (Hedges : edges (if has_node v0 (if has_node u0 G0 then G0 else add_node u0 G0)
                          then (if has_node u0 G0 then G0 else add_node u0 G0)
                          else add_node v0 (if has_node u0 G0 then G0 else add_node u0 G0))
                   = edges G0).
  { by destruct (has_node u0 G0), (has_node v0 _). }
  assert (Hnodes : nodes G0 ⊆
                   nodes (if has_node v0 (if has_node u0 G0 then G0 else add_node u0 G0)
                          then (if has_node u0 G0 then G0 else add_node u0 G0)
                          else add_node v0 (if has_node u0 G0 then G0 else add_node u0 G0))).
  { destruct (has_node u0 G0), (has_node v0 _); simpl; set_solver. }
  cbn [add_edge edges nodes]. rewrite Hedges.
  destruct (decide ((u0, v0) = (u, v))) as [[= <- <-] | Hne].
  - intros _. set_solver.
  - rewrite lookup_insert_ne by done. intros Huv.
    destruct (Hwf u v Huv). set_solver.
Qed.

Lemma graph_inv_step st st' :
  graph_inv st -> step st = Some (Ok st') -> graph_inv st'.
Proof.
  intros Hwf Hstep.
  destruct (step_inv st st' Hstep) as (addr & depth & q0 & Hq & Hcase).
  destruct Hcase as [[Hvis ->] | [(Hvis & http' & e & _ & ->)
                                 | (Hvis & http' & txs & es & _ & _ & ->)]].
  - done.
  - intros u v Huv. destruct (Hwf u v Huv). simpl. set_solver.
  - rewrite expanded_eq. cbv zeta. unfold graph_inv. cbn [G].
    apply write_edges_fold_endpoints.
    intros u v Huv. destruct (Hwf u v Huv). simpl. set_solver.
Qed.

Lemma pair_weights_elem u v w es :
  (u, v, w) ∈ es -> pair_weights u v es <> [].
Proof.
  unfold pair_weights, edge_postings.
  induction es as [|e es IH]; [by intros ?%elem_of_nil|].
  intros [<- | Hin]%elem_of_cons; cbn [map]; rewrite posted_cons; simpl.
  - by rewrite decide_True.
  - destruct (decide _); [done | by apply IH].
Qed.

(** Whatever the cap, both endpoints of every extracted edge are nodes of
    the graph. *)
Lemma extracted_endpoints_nodes n seed st u v w :
  crawl_steps n (init seed) = Some st ->
  (u, v, w) ∈ extracted st -> u ∈ nodes (G st) /\ v ∈ nodes (G st).
Proof.
  intros Hsteps Hin.
  assert (Hinv : tables_inv st /\ graph_inv st).
  { apply (crawl_steps_invariant (fun st => tables_inv st /\ graph_inv st))
      with (n := n) (st := init seed);
      [|split; [apply tables_inv_init | apply graph_inv_init]|exact Hsteps].
    intros st0 st1 [H0 H1] _ Hstep.
    split; [by apply (tables_inv_step st0) | by apply (graph_inv_step st0)]. }
  destruct Hinv as [(Hew & _ & Hedges) Hwf].
  apply Hwf. rewrite Hedges, Hew.
  apply pair_weights_elem in Hin.
  destruct (pair_weights u v (extracted st)); [done | by eexists].
Qed.

(** ** The loop ends *)

(** At most [MAX_NODES] addresses are ever visited. *)
Lemma visited_bounded n seed st :
  crawl_steps n (init seed) = Some st -> size (visited st) <= MAX_NODES cfg.
Proof.
  apply (crawl_steps_invariant
           (fun st => visited_inv st /\ size (visited st) <= MAX_NODES cfg)).
  - intros st0 st1 [Hinv Hsize] Hguard Hstep.
    split; [by apply (visited_inv_step st0)|].
    apply andb_true_iff in Hguard as [_ Hcap%bool_decide_eq_true].
    destruct Hinv as (Hsub & _).
    apply subseteq_size in Hsub. unfold len in Hcap.
    destruct (step_inv st0 st1 Hstep) as (addr & depth & q0 & Hq & Hcase).
    destruct Hcase as [[Hvis ->] | [(Hvis & http' & e & _ & ->)
                                   | (Hvis & http' & txs & es & _ & _ & ->)]].
    + done.
    + cbn [fetch_failed visited]. rewrite size_union by set_solver.
      rewrite size_singleton. lia.
    + rewrite expanded_eq. cbv zeta. cbn [visited].
      rewrite size_union by set_solver. rewrite size_singleton. lia.
  - split; [apply visited_inv_init|].
    change (visited (init seed)) with (∅ : gset address).
    rewrite size_empty. lia.
Qed.

(** An iteration either leaves [crawl_graph] with an exception, or drops
    a visited address from the frontier, or visits one more address,
    which the cap still allowed. *)
Lemma step_progress st :
  visited_inv st -> guard st = true ->
  (exists e, step st = Some (Raise e))
  \/ exists st',
       step st = Some (Ok st') /\ visited_inv st'
       /\ size (visited st) < MAX_NODES cfg
       /\ ((size (visited st') = size (visited st)
            /\ length (q st') < length (q st))
           \/ size (visited st') = S (size (visited st))).
Proof.
  intros Hinv Hguard.
  apply andb_true_iff in Hguard as [_ Hcap%bool_decide_eq_true].
  pose proof Hinv as (Hsub & _). apply subseteq_size in Hsub.
  unfold len in Hcap.
  destruct (step_total st) as [[st'|e] Hstep]; [right | left; by exists e].
  exists st'. split; [done|]. split; [by apply (visited_inv_step st)|].
  split; [lia|].
  destruct (step_inv st st' Hstep) as (addr & depth & q0 & Hq0 & Hcase).
  destruct Hcase as [[Hvis ->] | [(Hvis & http' & e & _ & ->)
                                 | (Hvis & http' & txs & es & _ & _ & ->)]].
  - left. rewrite Hq0. simpl. lia.
  - right. cbn [fetch_failed visited]. rewrite size_union by set_solver.
    by rewrite size_singleton.
  - right. rewrite expanded_eq. cbv zeta. cbn [visited].
    rewrite size_union by set_solver. by rewrite size_singleton.
Qed.

Lemma crawl_loop_terminates_from m :
  forall l st,
    visited_inv st ->
    MAX_NODES cfg - size (visited st) <= m -> length (q st) <= l ->
    exists fuel r, crawl_loop fuel st = Some r.
Proof.
  induction m as [m IHm] using lt_wf_ind.
  induction l as [l IHl] using lt_wf_ind.
  intros st Hinv Hm Hl.
  destruct (guard st) eqn:Hguard;
    [|exists 0, (Ok st); simpl; by rewrite Hguard].
  destruct (step_progress st Hinv Hguard)
    as [[e Hstep] | (st' & Hstep & Hinv' & Hcap & Hmeasure)].
  - exists 1, (Raise e). simpl. by rewrite Hguard, Hstep.
  - assert (Hnext : exists fuel r, crawl_loop fuel st' = Some r).
    { destruct Hmeasure as [[Hsame Hshorter] | Hmore].
      - apply (IHl (length (q st'))); [lia | done | lia | done].
      - apply (IHm (MAX_NODES cfg - size (visited st')))
          with (l := length (q st')); [lia | done | done | done]. }
    destruct Hnext as (fuel & r & Hloop).
    exists (S fuel), r. simpl. by rewrite Hguard, Hstep.
Qed.

(** More fuel does not change what the loop returns. *)
Lemma crawl_loop_more_fuel fuel fuel' st r :
  crawl_loop fuel st = Some r -> fuel <= fuel' -> crawl_loop fuel' st = Some r.
Proof.
  revert fuel' st. induction fuel as [|fuel IH]; intros fuel' st; simpl.
  - destruct (guard st) eqn:Hguard; [done|]. intros <- _.
    destruct fuel'; simpl; by rewrite Hguard.
  - destruct (guard st) eqn:Hguard.
    + intros Hloop Hle. destruct fuel' as [|fuel']; [lia|]. simpl.
      rewrite Hguard.
      destruct (step st) as [[st'|e]|]; [|done|done].
      apply IH; [done | lia].
    + intros <- _. destruct fuel'; simpl; by rewrite Hguard.
Qed.

End CrawlerFacts.

(** ** The extractor: batches, origins and exceptions *)

Section ExtractorMore.

Lemma tx_step_append t acc :
  tx_step t acc = r ← tx_step t []; Ok (acc ++ r).
Proof.
  unfold tx_step. destruct (tx_outs t) as [outs|e]; simpl; [|done].
  destruct (is_empty (tx_inputs t) || is_empty outs); simpl.
  - by rewrite app_nil_r.
  - by rewrite !attribute_spec.
Qed.

Lemma extraction_append txs acc :
  for_each txs tx_step acc = r ← for_each txs tx_step []; Ok (acc ++ r).
Proof.
  revert acc. induction txs as [|t txs IH]; intros acc; simpl.
  - by rewrite app_nil_r.
  - rewrite (tx_step_append t acc).
    destruct (tx_step t []) as [r|e]; simpl; [|done].
    rewrite (IH (acc ++ r)), (IH r).
    destruct (for_each txs tx_step []) as [r'|e]; simpl; [|done].
    by rewrite app_assoc.
Qed.

Lemma length_pairs {A B C : Type} (f : A -> B -> C) (l1 : list A) (l2 : list B) :
  length (flat_map (fun a => map (f a) l2) l1) = length l1 * length l2.
Proof.
  induction l1 as [|a l1 IH]; simpl; [done|].
  by rewrite length_app, length_map, IH.
Qed.

Lemma tx_inputs_nonempty t a : a ∈ tx_inputs t -> a <> "".
Proof.
  rewrite tx_inputs_spec. intros (i & _ & Hi)%list_elem_of_omap.
  unfold truthy in Hi. destruct (prev_out i ≫= addr) as [s|]; [|done].
  destruct (decide (s = "")); [done|]. by injection Hi as <-.
Qed.

Lemma output_step_addresses os acc r :
  Forall (fun o => o.1 <> "") acc ->
  for_each os output_step acc = Ok r -> Forall (fun o => o.1 <> "") r.
Proof.
  revert acc. induction os as [|o os IH]; intros acc Hacc; cbn [for_each].
  - by intros [= <-].
  - unfold output_step at 2.
    destruct (int_truediv (default 0%Z (value o)) 1e8) as [val|e]; simpl;
      [|done].
    unfold truthy. destruct (addr o) as [s|]; [|by apply IH].
    destruct (decide (s = "")); [by apply IH|].
    destruct (positive_float val); [|by apply IH].
    apply IH. apply Forall_app; split; [done|]. by constructor.
Qed.

(** Any exception of the extractor is an [OverflowError]. *)
Lemma output_step_raises o outs e :
  output_step o outs = Raise e ->
  e = OverflowError /\ exists v, value o = Some v /\ float_of_int v = Raise e.
Proof.
  unfold output_step, int_truediv.
  destruct (value o) as [v|]; simpl.
  - destruct (float_of_int v) as [x|e'] eqn:Hf; simpl.
    + destruct (truthy (addr o)); [destruct (positive_float _)|]; done.
    + intros [= <-]. split; [|by exists v].
      unfold float_of_int in Hf.
      destruct (binary_normalize prec emax v 0 false); congruence.
  - destruct (truthy (addr o)); done.
Qed.

Lemma for_each_raise_inv {A S : Type} (body : A -> S -> result S) l s e :
  for_each l body s = Raise e -> exists x s', x ∈ l /\ body x s' = Raise e.
Proof.
  revert s. induction l as [|x l IH]; intros s; simpl; [done|].
  destruct (body x s) as [s'|e'] eqn:Hx; simpl.
  - intros (y & s'' & Hy & Hraise)%IH. exists y, s''. split; [|done].
    apply elem_of_cons. by right.
  - intros [= <-]. exists x, s. split; [|done]. apply elem_of_cons. by left.
Qed.

Lemma for_each_raises {A S : Type} (body : A -> S -> result S) l x :
  x ∈ l -> (forall s, exists e, body x s = Raise e) ->
  forall s, exists e, for_each l body s = Raise e.
Proof.
  intros Hin Hx. induction l as [|y l IH]; intros s; [by apply elem_of_nil in Hin|].
  simpl. apply elem_of_cons in Hin as [<- | Hin].
  - destruct (Hx s) as [e ->]. by exists e.
  - destruct (body y s) as [s'|e]; simpl; [by apply IH | by exists e].
Qed.

(** The edges of one transaction, written out: every input address paired
    with every output, inputs outermost. *)
Lemma tx_step_pairs t outs :
  tx_outs t = Ok outs ->
  tx_step t []
  = Ok (flat_map
          (fun in_a =>
             map (fun o => (in_a, o.1,
                            (o.2 / float_of_len (max 1 (length (tx_inputs t))))%float))
                 outs)
          (tx_inputs t)).
Proof.
  intros Houts. unfold tx_step. rewrite Houts. simpl.
  destruct (tx_inputs t) as [|a ins] eqn:Hins; [done|].
  destruct outs as [|o outs]; simpl is_empty; simpl orb; cbv iota.
  - f_equal. clear. induction (a :: ins) as [|x l IH]; [done|]. by simpl.
  - by rewrite attribute_spec.
Qed.

(** What is behind an exception of the extractor. *)
Lemma extraction_raise_inv txs e :
  address_edges_from_txs txs = Raise e ->
  e = OverflowError
  /\ exists t o v, t ∈ txs /\ o ∈ default [] (out t)
                   /\ value o = Some v /\ float_of_int v = Raise e.
Proof.
  intros (t & acc & Ht & Hstep)%for_each_raise_inv.
  unfold tx_step in Hstep.
  destruct (tx_outs t) as [outs|e'] eqn:Houts; simpl in Hstep;
    [by destruct (is_empty (tx_inputs t) || is_empty outs)|].
  injection Hstep as ->.
  apply for_each_raise_inv in Houts as (o & outs & Ho & Hraise).
  apply output_step_raises in Hraise as (-> & v & Hv & Hconv).
  split; [done|]. by exists t, o, v.
Qed.

(** A value that does not convert makes the extractor raise. *)
Lemma extraction_raises txs t o v :
  t ∈ txs -> o ∈ default [] (out t) -> value o = Some v ->
  float_of_int v = Raise OverflowError ->
  address_edges_from_txs txs = Raise OverflowError.
Proof.
  intros Ht Ho Hv Hconv.
  destruct (for_each_raises tx_step txs t Ht) with (s := @nil edge) as [e He].
  { intros acc.
    destruct (for_each_raises output_step (default [] (out t)) o Ho)
      with (s := @nil (address * float)) as [e He].
    { intros outs. exists OverflowError.
      unfold output_step, int_truediv. rewrite Hv. simpl. by rewrite Hconv. }
    exists e. unfold tx_step, tx_outs. by rewrite He. }
  fold (address_edges_from_txs txs) in He.
  destruct (extraction_raise_inv txs e He) as [-> _]. exact He.
Qed.

(** Where a kept output comes from. *)
Lemma output_step_origin os acc r :
  for_each os output_step acc = Ok r ->
  forall p, p ∈ r ->
    p ∈ acc
    \/ exists o, o ∈ os /\ addr o = Some p.1 /\ p.1 <> ""
                 /\ int_truediv (default 0%Z (value o)) 1e8 = Ok p.2
                 /\ positive_float p.2 = true.
Proof.
  revert acc. induction os as [|o os IH]; intros acc; cbn [for_each].
  - intros [= <-] p Hp. by left.
  - unfold output_step at 2.
    destruct (int_truediv (default 0%Z (value o)) 1e8) as [val|e] eqn:Hval;
      simpl; [|done].
    assert (Hrest : forall acc', for_each os output_step acc' = Ok r ->
              (forall p, p ∈ acc' ->
                 p ∈ acc
                 \/ (addr o = Some p.1 /\ p.1 <> ""
                     /\ Ok val = Ok p.2 /\ positive_float p.2 = true)) ->
              forall p, p ∈ r ->
                p ∈ acc
                \/ exists o', o' ∈ o :: os /\ addr o' = Some p.1 /\ p.1 <> ""
                     /\ int_truediv (default 0%Z (value o')) 1e8 = Ok p.2
                     /\ positive_float p.2 = true).
    { intros acc' Hrun Hacc' p Hp.
      destruct (IH acc' Hrun p Hp) as [Hin | (o' & Ho' & Hrest)].
      - destruct (Hacc' p Hin) as [? | (Ha & Hne & Hv & Hpos)]; [by left|].
        right. exists o. rewrite Hval. split; [apply elem_of_cons; by left | done].
      - right. exists o'. split; [apply elem_of_cons; by right | done]. }
    unfold truthy. destruct (addr o) as [s|] eqn:Hs;
      [|intros Hrun; apply (Hrest acc Hrun); by left].
    destruct (decide (s = "")) as [|Hne];
      [intros Hrun; apply (Hrest acc Hrun); by left|].
    destruct (positive_float val) eqn:Hpos;
      [|intros Hrun; apply (Hrest acc Hrun); by left].
    intros Hrun. apply (Hrest _ Hrun).
    intros p [Hp | ->%list_elem_of_singleton]%elem_of_app; [by left|].
    right. by simpl.
Qed.

Lemma output_step_converts o outs :
  (exists outs', output_step o outs = Ok outs')
  <-> exists x, float_of_int (default 0%Z (value o)) = Ok x.
Proof.
  unfold output_step, int_truediv.
  destruct (float_of_int (default 0%Z (value o))) as [x|e]; simpl.
  - split; [by eauto|]. intros _.
    destruct (truthy (addr o)); [destruct (positive_float _)|]; by eauto.
  - split; [by intros [? ?] | by intros [? ?]].
Qed.

(** The outputs of a transaction are read without an exception exactly when
    every value converts to a float. *)
Lemma tx_outs_converts t :
  (exists outs, tx_outs t = Ok outs)
  <-> Forall (fun o => exists x, float_of_int (default 0%Z (value o)) = Ok x)
             (default [] (out t)).
Proof.
  unfold tx_outs. generalize (@nil (address * float)) as acc.
  induction (default [] (out t)) as [|o os IH]; intros acc; cbn [for_each].
  - split; [constructor | by eauto].
  - rewrite Forall_cons, <- (output_step_converts o acc).
    destruct (output_step o acc) as [acc'|e]; simpl.
    + rewrite IH. split; [by eauto | by intros [_ ?]].
    + split; [by intros [? ?] | by intros [[? ?] _]].
Qed.

(** A transaction whose outputs cannot be read makes the extractor raise,
    wherever it stands in the batch. *)
Lemma tx_outs_raises t e txs1 txs2 es1 :
  tx_outs t = Raise e -> address_edges_from_txs txs1 = Ok es1 ->
  e = OverflowError
  /\ address_edges_from_txs (txs1 ++ t :: txs2) = Raise OverflowError.
Proof.
  intros Houts Htxs1.
  assert (He : e = OverflowError).
  { destruct (for_each_raise_inv _ _ _ _ Houts) as (o & outs & _ & Ho).
    by apply output_step_raises in Ho as [-> _]. }
  subst e. split; [done|].
  assert (Hstep : forall acc, tx_step t acc = Raise OverflowError)
    by (intros acc; unfold tx_step; by rewrite Houts).
  unfold address_edges_from_txs in *. rewrite for_each_app, Htxs1.
  cbn [for_each mbind result_bind]. by rewrite Hstep.
Qed.

End ExtractorMore.

(** ** Node amounts and incident edges *)

Section Incidence.

Lemma posted_in_cons `{Countable K} (k : K) (ks : list K) (ps : list (K * float)) :
  k ∉ ks -> posted k ps ++ posted_in ks ps ≡ₚ posted_in (k :: ks) ps.
Proof.
  intros Hk. induction ps as [|[k' w] ps IH]; [done|].
  rewrite posted_cons. unfold posted_in in *. cbn [omap]. simpl.
  destruct (decide (k' = k)) as [-> | Hne].
  - rewrite decide_False by done. rewrite decide_True by (apply elem_of_cons; by left).
    simpl. by rewrite IH.
  - destruct (decide (k' ∈ ks)) as [Hin | Hnin].
    + rewrite decide_True by (apply elem_of_cons; by right).
      rewrite <- Permutation_middle. by rewrite IH.
    + rewrite decide_False by (intros [? | ?]%elem_of_cons; done).
      exact IH.
Qed.

(** Grouping the postings by key loses and adds nothing. *)
Lemma posted_grouped `{Countable K} (ks : list K) (ps : list (K * float)) :
  NoDup ks -> flat_map (fun k => posted k ps) ks ≡ₚ posted_in ks ps.
Proof.
  induction 1 as [|k ks Hk _ IH]; simpl.
  - unfold posted_in. induction ps as [|p ps IHps]; [done|]. simpl.
    destruct (decide (p.1 ∈ [])) as [Hin%elem_of_nil|]; [done | exact IHps].
  - rewrite IH. by apply posted_in_cons.
Qed.

Lemma posted_in_ext `{Countable K} (ks : list K) (P : K -> Prop)
    `{forall k, Decision (P k)} (ps : list (K * float)) :
  Forall (fun p => p.1 ∈ ks <-> P p.1) ps ->
  posted_in ks ps = omap (fun p => if decide (P p.1) then Some p.2 else None) ps.
Proof.
  unfold posted_in. induction 1 as [|p ps Hp _ IH]; [done|].
  simpl. destruct (decide (p.1 ∈ ks)), (decide (P p.1)); try tauto;
    first [exact IH | f_equal; exact IH].
Qed.

(** The weights an address receives are those of the edges leaving it and
    those of the edges entering it. *)
Lemma node_weights_sides a es :
  node_weights a es
  ≡ₚ omap (fun p => if decide (p.1.1 = a) then Some p.2 else None) (edge_postings es)
     ++ omap (fun p => if decide (p.1.2 = a) then Some p.2 else None) (edge_postings es).
Proof.
  unfold node_weights, node_postings, edge_postings.
  induction es as [|[[u v] w] es IH]; [done|].
  cbn [flat_map map app]. rewrite !posted_cons. cbn [omap]. simpl.
  destruct (decide (u = a)), (decide (v = a)); simpl; rewrite IH; try done.
  - by rewrite <- Permutation_middle.
  - by rewrite <- Permutation_middle.
Qed.

Lemma keys_lookup (m : gmap (address * address) float) (p : address * address) :
  p ∈ (map_to_list m).*1 <-> is_Some (m !! p).
Proof.
  rewrite list_elem_of_fmap. split.
  - intros ([p' w] & -> & Hin). apply elem_of_map_to_list in Hin. by exists w.
  - intros [w Hw]. exists (p, w). split; [done|]. by apply elem_of_map_to_list.
Qed.

Lemma incident_spec (a : address) (m : gmap (address * address) float)
    (p : address * address) :
  p ∈ incident a m <-> is_Some (m !! p) /\ (p.1 = a \/ p.2 = a).
Proof.
  unfold incident. rewrite elem_of_app, !list_elem_of_filter, keys_lookup. tauto.
Qed.

(** The weights of an address are, up to their order, those of the pairs
    incident to it, provided every edge has an entry in the table. *)
Lemma node_weights_incident (a : address) (es : list edge)
    (m : gmap (address * address) float) :
  (forall u v w, (u, v, w) ∈ es -> is_Some (m !! (u, v))) ->
  node_weights a es
  ≡ₚ flat_map (fun p => pair_weights p.1 p.2 es) (incident a m).
Proof.
  intros Hkeys. rewrite node_weights_sides. unfold incident.
  rewrite flat_map_app.
  assert (Hkeys' : forall P : address * address -> Prop,
    forall `{forall p, Decision (P p)},
    Forall (fun p : address * address * float =>
              p.1 ∈ filter P (map_to_list m).*1 <-> P p.1) (edge_postings es)).
  { intros P HP. apply Forall_forall. intros [[u v] w] Hin.
    apply list_elem_of_fmap in Hin as ([[u' v'] w'] & [= -> -> ->] & Hin).
    rewrite list_elem_of_filter, keys_lookup. simpl. specialize (Hkeys _ _ _ Hin). tauto. }
  assert (Hgroup : forall P : address * address -> Prop,
    forall `{forall p, Decision (P p)},
    flat_map (fun p => pair_weights p.1 p.2 es) (filter P (map_to_list m).*1)
    ≡ₚ omap (fun p => if decide (P p.1) then Some p.2 else None) (edge_postings es)).
  { intros P HP.
    rewrite <- (posted_in_ext (filter P (map_to_list m).*1) P) by apply Hkeys'.
    rewrite <- posted_grouped
      by (apply NoDup_filter, NoDup_fst_map_to_list).
    unfold pair_weights.
    assert (Heq : forall l : list (address * address),
      flat_map (fun p => posted (p.1, p.2) (edge_postings es)) l
      = flat_map (fun k => posted k (edge_postings es)) l).
    { intros l. induction l as [|[u v] l IHl]; [done|]. simpl. by rewrite IHl. }
    by rewrite Heq. }
  apply Permutation_app.
  - symmetry. apply (Hgroup (fun p => p.1 = a)).
  - symmetry. apply (Hgroup (fun p => p.2 = a)).
Qed.

End Incidence.

(** [crawl_graph] always ends: with enough fuel it returns its graph and
    tables, or raises what the extractor raised. *)
Theorem crawl_graph_terminates (cfg : config) (net : network)
    (order : set_order) (seed : address) :
  exists fuel r, forall fuel',
    fuel <= fuel' -> crawl_graph cfg net order fuel' seed = Some r.
Proof.
  destruct (crawl_loop_terminates_from cfg net order
              (MAX_NODES cfg - size (visited (init seed)))
              (length (q (init seed))) (init seed))
    as (fuel & r & Hloop); [apply visited_inv_init | done | done |].
  exists fuel.
  exists (match r with
          | Ok st => Ok (G st, (node_amount st, edge_w st))
          | Raise e => Raise e
          end).
  intros fuel' Hle. unfold crawl_graph.
  rewrite (crawl_loop_more_fuel cfg net order fuel fuel' _ r Hloop Hle).
  by destruct r.
Qed.

(** ** Properties of the specification *)

(** C1 fails on the code.  With a cap of two nodes and a seed A whose one
    transaction pays B and C, [crawl_graph] returns a graph of three nodes:
    lines 109-113 add both endpoints of every accumulated edge without
    looking at the cap. *)
Theorem C1_node_cap_exceeded :
  exists G tables,
    crawl_graph two_nodes ledger_ABC elements_order 1 "A" = Some (Ok (G, tables))
    /\ nodes G = {["A"; "B"; "C"]}
    /\ len G = 3
    /\ MAX_NODES two_nodes = 2.
Proof.
  eexists _, _. split; [vm_compute; reflexivity|].
  split; [|split; [|reflexivity]].
  - apply set_eq. intros a. vm_compute. set_solver.
  - vm_compute. reflexivity.
Qed.

(** C2 (amended): a transaction with N >= 1 resolvable input addresses
    (duplicates kept) and exactly one resolvable output [(b, V)], whose
    value is then positive, yields exactly N edges, one per input address
    in order, each to [b] with weight [V / N] computed in binary64; for
    inputs {A, D} and one output (B, 2.0) these are A->B 1.0 and D->B 1.0.
    The weights sum to V only up to rounding. *)
Theorem C2_one_output_edges (t : tx) (b : address) (V : float) (N : nat) :
  length (tx_inputs t) = N -> 1 <= N -> tx_outs t = Ok [(b, V)] ->
  let es := map (fun a => (a, b, (V / float_of_len N)%float)) (tx_inputs t) in
  address_edges_from_txs [t] = Ok es
  /\ length es = N
  /\ map snd es = replicate N (V / float_of_len N)%float
  /\ map (fun e => e.1.1) es = tx_inputs t
  /\ positive_float V = true
  /\ address_edges_from_txs [tx_AD_B]
     = Ok [("A", "B", 1%float); ("D", "B", 1%float)].
Proof.
  intros HN Hpos Houts es.
  assert (Hes : address_edges_from_txs [t] = Ok es).
  { rewrite address_edges_from_txs_one, Houts; simpl.
    destruct (tx_inputs t) as [|a ins] eqn:Hins; [simpl in HN; lia|].
    simpl is_empty. simpl orb. cbv iota. rewrite attribute_spec.
    rewrite HN. replace (max 1 N) with N by lia. simpl app.
    subst es. reflexivity. }
  split; [done|].
  split; [subst es; by rewrite length_map|].
  split.
  { subst es. rewrite map_map. simpl.
    generalize (V / float_of_len N)%float as w. intros w.
    rewrite <- HN. clear.
    induction (tx_inputs t) as [|a ins IH]; simpl; [done | by rewrite IH]. }
  split; [subst es; rewrite map_map; simpl; apply map_id|].
  split; [|by vm_compute].
  apply output_step_positive in Houts; [|constructor].
  by inversion Houts.
Qed.

Lemma C2_one_output_edges_witness :
  address_edges_from_txs [tx_AD_B]
  = Ok (map (fun a => (a, "B", (2 / float_of_len 2)%float)) (tx_inputs tx_AD_B))
  /\ length (tx_inputs tx_AD_B) = 2.
Proof.
  split; [|reflexivity].
  apply (C2_one_output_edges tx_AD_B "B" 2%float 2);
    [reflexivity | lia | vm_compute; reflexivity].
Defined.

(** C2, as stated, fails: inputs {A, C, D} and one output (B, 0.9) give
    three edges of weight 0.9 / 3 = 0.3 each, and 0.3 + 0.3 + 0.3 is
    0.8999999999999999 in binary64, not 0.9; added as exact rationals the
    three weights fall short of 0.9 as well. *)
Lemma C2_sum_counterexample :
  tx_inputs tx_ACD_B = ["A"; "C"; "D"]
  /\ tx_outs tx_ACD_B = Ok [("B", 0.9%float)]
  /\ address_edges_from_txs [tx_ACD_B]
     = Ok [("A", "B", 0.3%float); ("C", "B", 0.3%float); ("D", "B", 0.3%float)]
  /\ (0.9 / float_of_len 3)%float = 0.3%float
  /\ fsum [0.3%float; 0.3%float; 0.3%float] = 0.8999999999999999%float
  /\ (0.8999999999999999 =? 0.9)%float = false
  /\ (exact 0.3 + exact 0.3 + exact 0.3 ?= exact 0.9)%Q = Lt.
Proof. repeat split; vm_compute; reflexivity. Qed.

(** C3: at every point of the crawl, the entry of [edge_w] for an ordered
    pair (u, v) is the sum, added up in the order of attribution, of the
    weight of every edge u -> v the extractor has returned so far, over all
    transactions and all batches; there is no entry when there was no such
    edge.  An expansion adds the weights of its batch to the entry left by
    the batches before it, and the graph carries the same weights. *)
Theorem C3_edge_weight_accumulates (cfg : config) (net : network)
    (order : set_order) (seed : address) (n : nat) (st : state)
    (u v : address) :
  crawl_steps cfg net order n (init seed) = Some st ->
  edge_w st !! (u, v) = dd_sum (pair_weights u v (extracted st))
  /\ dd_get (edge_w st) (u, v) = fsum (pair_weights u v (extracted st))
  /\ edges (G st) !! (u, v) = edge_w st !! (u, v)
  /\ forall addr depth q0 http' es,
       let st' := expanded cfg order st addr depth q0 http' es in
       extracted st' = extracted st ++ es
       /\ dd_get (edge_w st') (u, v)
          = fold_left PrimFloat.add (pair_weights u v es)
              (dd_get (edge_w st) (u, v)).
Proof.
  intros Hsteps.
  assert (Hinv : tables_inv st).
  { apply (crawl_steps_invariant cfg net order tables_inv) with (n := n) (st := init seed);
      [|apply tables_inv_init|exact Hsteps].
    intros st0 st1 H0 _ Hstep. by apply (tables_inv_step cfg net order st0). }
  destruct Hinv as (Hew & _ & Hedges).
  split; [apply Hew|]. split; [apply dd_sum_get, Hew|].
  split; [by rewrite Hedges|].
  intros addr depth q0 http' es st'. subst st'. rewrite expanded_eq. cbv zeta.
  cbn [extracted edge_w]. split; [done|].
  unfold dd_get at 1. rewrite dd_add_all_lookup.
  fold (pair_weights u v es).
  by destruct (pair_weights u v es).
Qed.

Lemma C3_edge_weight_accumulates_witness :
  exists st,
    crawl_steps default_config ledger_shared elements_order 3 (init "A")
    = Some st
    /\ fetched st = ["A"; "C"; "B"]
    /\ pair_weights "A" "B" (extracted st) = [1%float; 1%float]
    /\ edge_w st !! ("A", "B") = dd_sum (pair_weights "A" "B" (extracted st))
    /\ edge_w st !! ("A", "B") = Some 2%float.
Proof.
  eexists. split; [vm_compute; reflexivity|].
  split; [vm_compute; reflexivity|].
  split; [vm_compute; reflexivity|].
  split; [|vm_compute; reflexivity].
  eapply (C3_edge_weight_accumulates default_config ledger_shared
            elements_order "A" 3).
  vm_compute; reflexivity.
Defined.

(** C4 (amended): at every point of the crawl, the entry of [node_amount]
    for an address is the sum, added up in the order of attribution, of the
    weight of every extracted edge that leaves the address and of every
    extracted edge that enters it (an edge from the address to itself
    counts twice); there is no entry for an address on no edge.  The edges
    of the graph incident to the address are the pairs of [edge_w] that
    leave or enter it; each carries, in the graph and in [edge_w], the sum
    of the weights attributed to its pair; and the weights summed into
    [node_amount] are, up to their order, exactly the weights summed into
    those incident edges.  The two sides of the original equation therefore
    add up the same numbers, grouped differently, and differ by rounding
    only.  For the seed A with one transaction of inputs {A} and outputs
    (B, 1.0) and (C, 0.5), the crawl ends with the edges A->B of weight 1.0
    and A->C of weight 0.5 and with the amounts A: 1.5, B: 1.0, C: 0.5. *)
Theorem C4_node_amount (cfg : config) (net : network) (order : set_order)
    (seed : address) (n : nat) (st : state) (a : address) :
  crawl_steps cfg net order n (init seed) = Some st ->
  node_amount st !! a = dd_sum (node_weights a (extracted st))
  /\ dd_get (node_amount st) a = fsum (node_weights a (extracted st))
  /\ (forall p, p ∈ incident a (edge_w st)
                <-> is_Some (edges (G st) !! p) /\ (p.1 = a \/ p.2 = a))
  /\ Forall (fun p =>
               edge_w st !! p = Some (fsum (pair_weights p.1 p.2 (extracted st)))
               /\ edges (G st) !! p = edge_w st !! p)
            (incident a (edge_w st))
  /\ node_weights a (extracted st)
     ≡ₚ flat_map (fun p => pair_weights p.1 p.2 (extracted st))
          (incident a (edge_w st))
  /\ exists G amounts weights,
       crawl_graph default_config ledger_ABC elements_order 3 "A"
       = Some (Ok (G, (amounts, weights)))
       /\ map_to_list (edges G)
          = [(("A", "C"), 0.5%float); (("A", "B"), 1%float)]
       /\ amounts !! "A" = Some 1.5%float
       /\ amounts !! "B" = Some 1%float
       /\ amounts !! "C" = Some 0.5%float
       /\ size amounts = 3.
Proof.
  intros Hsteps.
  assert (Hinv : tables_inv st).
  { apply (crawl_steps_invariant cfg net order tables_inv) with (n := n) (st := init seed);
      [|apply tables_inv_init|exact Hsteps].
    intros st0 st1 H0 _ Hstep. by apply (tables_inv_step cfg net order st0). }
  destruct Hinv as (Hew & Hna & Hedges).
  split; [apply Hna|]. split; [apply dd_sum_get, Hna|].
  split; [intros p; rewrite Hedges; apply incident_spec|].
  split.
  { apply Forall_forall. intros [u v] [[w Hw] _]%incident_spec.
    split; [|by rewrite Hedges]. simpl.
    rewrite Hew in Hw |- *. by destruct (pair_weights u v (extracted st)). }
  split.
  { apply node_weights_incident. intros u v w Hin. rewrite Hew.
    pose proof (pair_weights_elem u v w _ Hin) as Hne.
    destruct (pair_weights u v (extracted st)); [done | by eexists]. }
  eexists _, _, _. split; [vm_compute; reflexivity|].
  repeat split; vm_compute; reflexivity.
Qed.

Lemma C4_node_amount_witness :
  exists st,
    crawl_steps default_config ledger_rounding elements_order 1 (init "A")
    = Some st
    /\ node_weights "A" (extracted st) = [0.3%float; 0.1%float; 0.2%float]
    /\ incident "A" (edge_w st) = [("A", "C"); ("A", "B")]
    /\ flat_map (fun p => pair_weights p.1 p.2 (extracted st))
         (incident "A" (edge_w st))
       = [0.1%float; 0.3%float; 0.2%float]
    /\ node_amount st !! "A" = dd_sum (node_weights "A" (extracted st))
    /\ Forall (fun p =>
                 edge_w st !! p
                 = Some (fsum (pair_weights p.1 p.2 (extracted st)))
                 /\ edges (G st) !! p = edge_w st !! p)
              (incident "A" (edge_w st))
    /\ node_weights "A" (extracted st)
       ≡ₚ flat_map (fun p => pair_weights p.1 p.2 (extracted st))
            (incident "A" (edge_w st)).
Proof.
  eexists. split; [vm_compute; reflexivity|].
  split; [vm_compute; reflexivity|].
  split; [vm_compute; reflexivity|].
  split; [vm_compute; reflexivity|].
  destruct (C4_node_amount default_config ledger_rounding elements_order "A" 1
              _ "A" eq_refl) as (H1 & _ & _ & H4 & H5 & _).
  split; [exact H1|]. split; [exact H4 | exact H5].
Defined.

(** C4, as stated, fails: after the seed A is expanded on [ledger_rounding],
    the edges at A are A->B of accumulated weight 0.3 + 0.2 = 0.5 and A->C
    of weight 0.1, which add up to 0.6 in either order (and to less than
    0.6000000000000001 as exact rationals), while [node_amount] of A is
    (0.3 + 0.1) + 0.2 = 0.6000000000000001. *)
Lemma C4_rounding_counterexample :
  exists st,
    crawl_steps default_config ledger_rounding elements_order 1 (init "A")
    = Some st
    /\ map_to_list (edge_w st)
       = [(("A", "C"), 0.1%float); (("A", "B"), 0.5%float)]
    /\ edges (G st) = edge_w st
    /\ fsum [0.1%float; 0.5%float] = 0.6%float
    /\ fsum [0.5%float; 0.1%float] = 0.6%float
    /\ node_amount st !! "A" = Some 0.6000000000000001%float
    /\ (0.6000000000000001 =? 0.6)%float = false
    /\ (exact 0.5 + exact 0.1 ?= exact 0.6000000000000001)%Q = Lt.
Proof.
  eexists. split; [vm_compute; reflexivity|].
  repeat split; vm_compute; reflexivity.
Qed.

(** C5: during a crawl no address is passed to the fetcher twice, and the
    addresses fetched are exactly the visited ones.  An iteration whose
    address is already visited only drops the head of the frontier: no
    request is sent and nothing else changes.  Every entry an iteration
    appends to the frontier is an address that is not visited. *)
Theorem C5_expand_once (cfg : config) (net : network) (order : set_order)
    (seed : address) (n : nat) (st : state) :
  crawl_steps cfg net order n (init seed) = Some st ->
  NoDup (fetched st)
  /\ (forall a, a ∈ fetched st <-> a ∈ visited st)
  /\ (forall addr depth q0,
        q st = (addr, depth) :: q0 -> addr ∈ visited st ->
        step cfg net order st = Some (Ok (skipped st q0))
        /\ http (skipped st q0) = http st
        /\ fetched (skipped st q0) = fetched st)
  /\ (forall st',
        step cfg net order st = Some (Ok st') ->
        exists new,
          q st' = tail (q st) ++ new
          /\ Forall (fun e => e.1 ∉ visited st') new).
Proof.
  intros Hsteps.
  assert (Hinv : visited_inv st).
  { apply (crawl_steps_invariant cfg net order visited_inv) with (n := n) (st := init seed);
      [|apply visited_inv_init|exact Hsteps].
    intros st0 st1 H0 _ Hstep. by apply (visited_inv_step cfg net order st0). }
  destruct Hinv as (_ & Hfet & Hnd).
  split; [exact Hnd|]. split; [exact Hfet|]. split.
  - intros addr depth q0 Hq Hvis. split; [|done].
    unfold step. rewrite Hq. by rewrite bool_decide_eq_true_2.
  - intros st' Hstep.
    destruct (step_queue cfg net order st st' Hstep)
      as (addr & depth & q0 & new & Hq & Hq' & Hnew).
    exists new. rewrite Hq. split; [done|].
    eapply Forall_impl; [exact Hnew|]. by intros e (? & _).
Qed.

Lemma C5_expand_once_witness :
  exists st,
    crawl_steps default_config ledger_ABC elements_order 3 (init "A") = Some st
    /\ fetched st = ["A"; "C"; "B"]
    /\ NoDup (fetched st).
Proof.
  eexists. split; [vm_compute; reflexivity|].
  split; [vm_compute; reflexivity|].
  eapply (C5_expand_once default_config ledger_ABC elements_order "A" 3).
  vm_compute; reflexivity.
Defined.

(** C6: the seed is enqueued at depth 0 and, at every point of the crawl,
    every entry of the frontier has a depth of at most [MAX_DEPTH]: an
    iteration on an address at depth [d] appends entries only when
    [d < MAX_DEPTH], all at depth [d + 1].  With [MAX_DEPTH = 0] the loop
    runs at most once: the seed is the only address fetched, and the
    frontier is empty from then on. *)
Theorem C6_depth_bounded (cfg : config) (net : network) (order : set_order)
    (seed : address) (n : nat) (st : state) :
  crawl_steps cfg net order n (init seed) = Some st ->
  q (init seed) = [(seed, 0)]
  /\ Forall (fun e => e.2 <= MAX_DEPTH cfg) (q st)
  /\ (forall st',
        step cfg net order st = Some (Ok st') ->
        exists addr depth q0 new,
          q st = (addr, depth) :: q0 /\ q st' = q0 ++ new
          /\ Forall (fun e => e.2 = depth + 1 /\ depth < MAX_DEPTH cfg) new)
  /\ (MAX_DEPTH cfg = 0 ->
      (n = 0 /\ st = init seed)
      \/ (n = 1 /\ q st = [] /\ fetched st = [seed])).
Proof.
  intros Hsteps. split; [done|]. split; [|split].
  - apply (crawl_steps_invariant cfg net order (depth_inv cfg)) with (n := n) (st := init seed);
      [|apply depth_inv_init|exact Hsteps].
    intros st0 st1 H0 _ Hstep. by apply (depth_inv_step cfg net order st0).
  - intros st' Hstep.
    destruct (step_queue cfg net order st st' Hstep)
      as (addr & depth & q0 & new & Hq & Hq' & Hnew).
    exists addr, depth, q0, new. split; [done|]. split; [done|].
    eapply Forall_impl; [exact Hnew|]. by intros e (_ & ? & ? & _).
  - intros Hzero. destruct n as [|n]; [left; by injection Hsteps as <-|].
    right. simpl in Hsteps.
    destruct (guard cfg (init seed)); [|done].
    destruct (step cfg net order (init seed)) as [[st1|e]|] eqn:Hstep; [|done|done].
    assert (Hst1 : q st1 = [] /\ fetched st1 = [seed]).
    { destruct (step_queue cfg net order _ _ Hstep)
        as (addr & depth & q0 & new & Hq & Hq' & Hnew).
      injection Hq as <- <- <-.
      destruct new as [|e new]; [|apply Forall_cons in Hnew as [(_ & _ & ? & _) _]; lia].
      split; [done|].
      destruct (step_inv cfg net order _ _ Hstep) as (addr & depth & q0 & Hq & Hcase).
      injection Hq as <- <- <-.
      destruct Hcase as [[Hvis _] | [(_ & http' & e & _ & ->)
                                    | (_ & http' & txs & es & _ & _ & ->)]].
      - by apply not_elem_of_empty in Hvis.
      - done.
      - by rewrite expanded_eq. }
    destruct Hst1 as [Hq1 Hf1].
    destruct n as [|n]; [by injection Hsteps as <-|].
    simpl in Hsteps. unfold guard in Hsteps. by rewrite Hq1 in Hsteps.
Qed.

Lemma C6_depth_bounded_witness :
  (exists st,
     crawl_steps default_config ledger_ABC elements_order 1 (init "A") = Some st
     /\ q st = [("C", 1); ("B", 1)]
     /\ Forall (fun e => e.2 <= MAX_DEPTH default_config) (q st))
  /\ (exists st,
        crawl_steps depth_zero ledger_ABC elements_order 1 (init "A") = Some st
        /\ extracted st = [("A", "B", 1%float); ("A", "C", 0.5%float)]
        /\ ((1 = 0 /\ st = init "A")
            \/ (1 = 1 /\ q st = [] /\ fetched st = ["A"]))).
Proof.
  split.
  - eexists. split; [vm_compute; reflexivity|].
    split; [vm_compute; reflexivity|].
    eapply (C6_depth_bounded default_config ledger_ABC elements_order "A" 1).
    vm_compute; reflexivity.
  - eexists. split; [vm_compute; reflexivity|].
    split; [vm_compute; reflexivity|].
    eapply (C6_depth_bounded depth_zero ledger_ABC elements_order "A" 1);
      [vm_compute; reflexivity | reflexivity].
Defined.

(** C7 (amended): a transaction whose output values all convert to a
    float, and which has no resolvable input address or no resolvable
    output, adds no edge, alone or inside a batch; the outputs of a
    transaction are read without an exception exactly when every value
    converts.  A transaction with a value that does not convert makes the
    extractor raise [OverflowError], whatever its inputs and wherever it
    stands in the batch.  An output of value zero is dropped before
    attribution, so a transaction whose outputs are all of value zero adds
    no edge either. *)
Theorem C7_no_edges :
  (forall (t : tx) (outs : list (address * float)),
     tx_outs t = Ok outs -> tx_inputs t = [] \/ outs = [] ->
     address_edges_from_txs [t] = Ok []
     /\ forall txs1 txs2,
         address_edges_from_txs (txs1 ++ t :: txs2)
         = address_edges_from_txs (txs1 ++ txs2))
  /\ (forall t : tx,
        (exists outs, tx_outs t = Ok outs)
        <-> Forall (fun o => exists x, float_of_int (default 0%Z (value o)) = Ok x)
                   (default [] (out t)))
  /\ (forall (t : tx) (e : exn),
        tx_outs t = Raise e ->
        e = OverflowError
        /\ address_edges_from_txs [t] = Raise OverflowError
        /\ forall txs1 txs2 es1,
             address_edges_from_txs txs1 = Ok es1 ->
             address_edges_from_txs (txs1 ++ t :: txs2) = Raise OverflowError)
  /\ (forall (ins : option (list input)) (os1 os2 : list output) (o : output),
        value o = Some 0%Z ->
        tx_outs {| inputs := ins; out := Some (os1 ++ o :: os2) |}
        = tx_outs {| inputs := ins; out := Some (os1 ++ os2) |})
  /\ (forall (ins : option (list input)) (os : list output),
        Forall (fun o => value o = Some 0%Z) os ->
        tx_outs {| inputs := ins; out := Some os |} = Ok []
        /\ address_edges_from_txs [{| inputs := ins; out := Some os |}] = Ok []).
Proof.
  split; [|split; [|split; [|split]]].
  - intros t outs Houts Hempty.
    assert (Hbody : forall edges, tx_step t edges = Ok edges).
    { intros edges. unfold tx_step. rewrite Houts; simpl.
      destruct Hempty as [-> | ->]; [done|].
      by rewrite orb_true_r. }
    split.
    + unfold address_edges_from_txs; simpl. by rewrite Hbody.
    + intros txs1 txs2. unfold address_edges_from_txs.
      by apply for_each_skip.
  - apply tx_outs_converts.
  - intros t e Houts.
    destruct (tx_outs_raises t e [] [] [] Houts eq_refl) as [He Hone].
    split; [done|]. split; [exact Hone|].
    intros txs1 txs2 es1 Htxs1.
    by destruct (tx_outs_raises t e txs1 txs2 es1 Houts Htxs1).
  - intros ins os1 os2 o Hv. unfold tx_outs; simpl.
    apply for_each_skip. intros outs. apply output_step_zero. by rewrite Hv.
  - intros ins os Hos.
    assert (Houts : tx_outs {| inputs := ins; out := Some os |} = Ok []).
    { unfold tx_outs; simpl. generalize (@nil (address * float)) as acc.
      induction Hos as [|o os Ho _ IH]; intros acc; simpl; [done|].
      rewrite output_step_zero by (by rewrite Ho). apply IH. }
    split; [done|].
    rewrite address_edges_from_txs_one, Houts; simpl.
    by rewrite orb_true_r.
Qed.

Lemma C7_no_edges_witness :
  address_edges_from_txs
    [{| inputs := Some [{| prev_out := None |}];
        out := Some [mk_out "B" 100000000] |}] = Ok []
  /\ (exists outs, tx_outs tx_A_BC = Ok outs)
  /\ address_edges_from_txs [tx_A_BC; tx_huge] = Raise OverflowError
  /\ tx_outs {| inputs := Some [mk_in "A"];
                out := Some ([mk_out "B" 5] ++ mk_out "C" 0 :: []) |}
     = tx_outs {| inputs := Some [mk_in "A"]; out := Some ([mk_out "B" 5] ++ []) |}
  /\ address_edges_from_txs
       [{| inputs := Some [mk_in "A"]; out := Some [mk_out "B" 0] |}] = Ok [].
Proof.
  destruct C7_no_edges as (H1 & H2 & H3 & H4 & H5).
  split; [|split; [|split; [|split]]].
  - apply (H1 _ [("B", 1%float)]); [vm_compute; reflexivity | left; reflexivity].
  - apply H2. repeat constructor; vm_compute; eauto.
  - apply (H3 tx_huge OverflowError ltac:(vm_compute; reflexivity)) with (txs1 := [tx_A_BC]) (txs2 := []) (es1 := [("A", "B", 1%float); ("A", "C", 0.5%float)]).
    vm_compute; reflexivity.
  - apply H4. reflexivity.
  - apply H5. repeat constructor.
Defined.

(** C7, as stated, fails: [tx_no_input_huge] has no resolvable input
    address, yet the extractor does not return an empty list for it; it
    raises [OverflowError] at the division of line 54, before the test of
    line 58 is reached. *)
Lemma C7_overflow_counterexample :
  tx_inputs tx_no_input_huge = []
  /\ address_edges_from_txs [tx_no_input_huge] = Raise OverflowError
  /\ float_of_int (2 ^ 1024) = Raise OverflowError.
Proof. repeat split; vm_compute; reflexivity. Qed.

(** C8: when the fetch for the address at the head of the frontier raises,
    the iteration still ends normally: the warning is printed, the address
    is visited and is a node, the edges of the graph, both tables and the
    list of extracted edges are as before, and the frontier is left with
    the next entries, which the loop goes on with. *)
Theorem C8_fetch_failure (cfg : config) (net : network) (order : set_order)
    (st : state) (addr : address) (depth : nat) (q0 : list (address * nat))
    (http' : list request) (e : exn) :
  q st = (addr, depth) :: q0 -> addr ∉ visited st ->
  fetch_txs_blockchain_info net (S (MAX_TX_PER_ADDRESS cfg)) addr 50
    (MAX_TX_PER_ADDRESS cfg) (http st) = (Some (Raise e), http') ->
  exists st',
    step cfg net order st = Some (Ok st')
    /\ stdout st' = stdout st ++ [(addr, e)]
    /\ visited st' = {[addr]} ∪ visited st
    /\ nodes (G st') = {[addr]} ∪ nodes (G st)
    /\ edges (G st') = edges (G st)
    /\ edge_w st' = edge_w st
    /\ node_amount st' = node_amount st
    /\ extracted st' = extracted st
    /\ q st' = q0
    /\ (forall fuel, guard cfg st = true ->
          crawl_loop cfg net order (S fuel) st = crawl_loop cfg net order fuel st').
Proof.
  intros Hq Hvis Hfetch. exists (fetch_failed st addr q0 http' e).
  assert (Hstep : step cfg net order st
                  = Some (Ok (fetch_failed st addr q0 http' e))).
  { unfold step. rewrite Hq. rewrite bool_decide_eq_false_2 by done.
    by rewrite Hfetch. }
  repeat split; try done.
  intros fuel Hguard. simpl. by rewrite Hguard, Hstep.
Qed.

Lemma C8_fetch_failure_witness :
  exists st',
    step default_config ledger_down elements_order (init "A") = Some (Ok st')
    /\ stdout st' = stdout (init "A") ++ [("A", RequestException)]
    /\ visited st' = {["A"]} ∪ visited (init "A")
    /\ nodes (G st') = {["A"]} ∪ nodes (G (init "A"))
    /\ edges (G st') = edges (G (init "A"))
    /\ edge_w st' = edge_w (init "A")
    /\ node_amount st' = node_amount (init "A")
    /\ extracted st' = extracted (init "A")
    /\ q st' = []
    /\ (forall fuel, guard default_config (init "A") = true ->
          crawl_loop default_config ledger_down elements_order (S fuel) (init "A")
          = crawl_loop default_config ledger_down elements_order fuel st').
Proof.
  apply (C8_fetch_failure default_config ledger_down elements_order (init "A")
           "A" 0 []
           [{| req_address := "A"; req_limit := 50; req_offset := 0 |}]
           RequestException).
  - reflexivity.
  - vm_compute. set_solver.
  - vm_compute. reflexivity.
Defined.

(** C9: for every address, maximum, page size [limit_each] >= 1 and
    service, the fetcher finishes within [max_txs + 1] iterations.  It sends
    the requests number 0, 1, ..., k-1, all with the same page size
    [min limit_each 50] <= 50 and with offsets 0, limit, 2 * limit, ...;
    request [i] is sent only if fewer than [max_txs] records have come and
    every earlier page was full; and it ends either by raising the exception
    of the last request, or by returning the first [max_txs] of the records
    received, hence at most [max_txs], when [max_txs] were reached or the
    last page was short. *)
Theorem C9_fetch_pages (net : network) (address : address)
    (limit_each max_txs fuel : nat) (http : list request) :
  0 < limit_each -> max_txs < fuel ->
  let limit := min limit_each 50 in
  exists k r,
    fetch_txs_blockchain_info net fuel address limit_each max_txs http
    = (Some r, http ++ map (nth_request address limit) (seq 0 k))
    /\ limit <= 50
    /\ (forall i, i < k -> needed net (length http) address limit max_txs i)
    /\ ends net (length http) address limit max_txs k r
    /\ (forall txs, r = Ok txs -> length txs <= max_txs).
Proof.
  intros Hlimit Hfuel limit.
  destruct (fetch_loop_spec net address limit max_txs http) with (fuel := fuel) (j := 0)
    as (k & r & Hrun & Hneeded & Hends); [subst limit; lia | lia | intros; lia |].
  exists k, r. simpl in Hrun. rewrite app_nil_r in Hrun.
  split; [exact Hrun|]. split; [subst limit; lia|].
  split; [exact Hneeded|]. split; [exact Hends|].
  intros txs ->. by destruct Hends as (_ & Hlen & _).
Qed.

Lemma C9_fetch_pages_witness :
  fetch_txs_blockchain_info (ledger_paged (replicate 120 tx_AD_B)) 201 "A" 50
    200 []
  = (Some (Ok (replicate 120 tx_AD_B)),
     [ {| req_address := "A"; req_limit := 50; req_offset := 0 |};
       {| req_address := "A"; req_limit := 50; req_offset := 50 |};
       {| req_address := "A"; req_limit := 50; req_offset := 100 |} ])
  /\ exists k r,
      fetch_txs_blockchain_info (ledger_paged (replicate 120 tx_AD_B)) 201 "A"
        50 200 []
      = (Some r, [] ++ map (nth_request "A" (min 50 50)) (seq 0 k))
      /\ min 50 50 <= 50
      /\ (forall i, i < k ->
            needed (ledger_paged (replicate 120 tx_AD_B)) (length (@nil request))
              "A" (min 50 50) 200 i)
      /\ ends (ledger_paged (replicate 120 tx_AD_B)) (length (@nil request))
           "A" (min 50 50) 200 k r
      /\ (forall txs, r = Ok txs -> length txs <= 200).
Proof.
  split; [vm_compute; reflexivity|].
  apply (C9_fetch_pages (ledger_paged (replicate 120 tx_AD_B)) "A" 50 200 201 []);
    lia.
Defined.

(** C10: missing optional fields never make the extractor fail.  An input
    without [prev_out], or whose [prev_out] has no [addr], is skipped; an
    output without [value] is dropped like one of value zero; a transaction
    without [inputs] or without [out] adds no edge; and on any batch the
    extractor returns a list of edges, whatever is missing, as long as each
    value that is present converts to a float. *)
Theorem C10_missing_fields :
  (forall (os : option (list output)) (is1 is2 : list input) (i : input),
     prev_out i = None \/ (exists p, prev_out i = Some p /\ addr p = None) ->
     tx_inputs {| inputs := Some (is1 ++ i :: is2); out := os |}
     = tx_inputs {| inputs := Some (is1 ++ is2); out := os |})
  /\ (forall (ins : option (list input)) (os1 os2 : list output) (o : output),
        value o = None ->
        tx_outs {| inputs := ins; out := Some (os1 ++ o :: os2) |}
        = tx_outs {| inputs := ins; out := Some (os1 ++ os2) |})
  /\ (forall (t : tx),
        (inputs t = None -> tx_inputs t = [])
        /\ (out t = None -> tx_outs t = Ok []
                            /\ address_edges_from_txs [t] = Ok []))
  /\ (forall (txs : list tx),
        Forall (fun t =>
                  Forall (fun o => forall v, value o = Some v ->
                                             exists x, float_of_int v = Ok x)
                         (default [] (out t))) txs ->
        exists es, address_edges_from_txs txs = Ok es).
Proof.
  split; [|split; [|split]].
  - intros os is1 is2 i Hi. rewrite !tx_inputs_spec; simpl.
    rewrite !omap_app; simpl.
    by destruct Hi as [-> | (p & -> & Hp)]; simpl; [|rewrite Hp].
  - intros ins os1 os2 o Hv. unfold tx_outs; simpl.
    apply for_each_skip. intros outs. apply output_step_zero. by rewrite Hv.
  - intros t. split.
    + intros Hi. unfold tx_inputs. by rewrite Hi.
    + intros Ho.
      assert (Houts : tx_outs t = Ok []) by (unfold tx_outs; by rewrite Ho).
      split; [done|].
      rewrite address_edges_from_txs_one, Houts; simpl.
      by rewrite orb_true_r.
  - intros txs Htxs. unfold address_edges_from_txs.
    apply for_each_total.
    eapply Forall_impl; [exact Htxs|]. intros t Ht edges; simpl in Ht.
    unfold tx_step.
    destruct (for_each_total output_step (default [] (out t))) with (s := @nil (address * float))
      as [outs Houts].
    { eapply Forall_impl; [exact Ht|]. intros o Ho outs; simpl in Ho.
      unfold output_step, int_truediv.
      destruct (value o) as [v|]; simpl.
      - destruct (Ho v eq_refl) as [x ->]; simpl.
        destruct (truthy (addr o)); [|by eauto].
        destruct (positive_float _); by eauto.
      - destruct (truthy (addr o)); by eauto. }
    unfold tx_outs. rewrite Houts; simpl.
    destruct (is_empty (tx_inputs t) || is_empty outs); by eauto.
Qed.

Lemma C10_missing_fields_witness :
  tx_inputs tx_sparse
  = tx_inputs {| inputs := Some ([{| prev_out := None |}] ++ [mk_in "A"]);
                 out := out tx_sparse |}
  /\ tx_outs tx_sparse
     = tx_outs {| inputs := inputs tx_sparse; out := Some ([mk_out "B" 5] ++ []) |}
  /\ address_edges_from_txs [{| inputs := Some [mk_in "A"]; out := None |}] = Ok []
  /\ exists es, address_edges_from_txs [tx_sparse] = Ok es.
Proof.
  destruct C10_missing_fields as (H1 & H2 & H3 & H4).
  split; [|split; [|split]].
  - apply H1. right. eexists. split; reflexivity.
  - apply H2. reflexivity.
  - apply H3. reflexivity.
  - apply H4. repeat constructor; simpl; intros v [= <-]; vm_compute; eauto.
Defined.


(** ** More on the extractor *)

(** One transaction yields one edge for every pair of a resolvable input
    address and a resolvable output, inputs outermost and both in their
    order, so [len(inputs) * len(outs)] edges in all; the weight of an edge
    is the value of its output divided by [max(1, len(inputs))]. *)
Theorem tx_edges_are_pairs (t : tx) (outs : list (address * float)) :
  tx_outs t = Ok outs ->
  let es :=
    flat_map
      (fun in_a =>
         map (fun o => (in_a, o.1,
                        (o.2 / float_of_len (max 1 (length (tx_inputs t))))%float))
             outs)
      (tx_inputs t) in
  address_edges_from_txs [t] = Ok es
  /\ length es = length (tx_inputs t) * length outs.
Proof.
  intros Houts es. split.
  - unfold address_edges_from_txs. simpl. rewrite (tx_step_pairs t outs Houts).
    done.
  - apply (length_pairs (fun in_a (o : address * float) => (in_a, o.1, _))).
Qed.

Lemma tx_edges_are_pairs_witness :
  address_edges_from_txs [tx_A_BC] = Ok [("A", "B", 1%float); ("A", "C", 0.5%float)]
  /\ length
       (flat_map
          (fun in_a =>
             map (fun o : address * float =>
                    (in_a, o.1,
                     (o.2 / float_of_len (max 1 (length (tx_inputs tx_A_BC))))%float))
                 [("B", 1%float); ("C", 0.5%float)])
          (tx_inputs tx_A_BC))
     = length (tx_inputs tx_A_BC) * length [("B", 1%float); ("C", 0.5%float)].
Proof.
  split; [vm_compute; reflexivity|].
  apply (tx_edges_are_pairs tx_A_BC [("B", 1%float); ("C", 0.5%float)]).
  vm_compute; reflexivity.
Defined.

(** The edges of a batch are the edges of its transactions, in the order of
    the batch: extracting from [txs1 ++ txs2] gives the edges of [txs1]
    followed by those of [txs2], and raises what the first of the two
    raises. *)
Theorem extraction_of_batches (txs1 txs2 : list tx) :
  address_edges_from_txs (txs1 ++ txs2)
  = es1 ← address_edges_from_txs txs1;
    es2 ← address_edges_from_txs txs2;
    Ok (es1 ++ es2).
Proof.
  unfold address_edges_from_txs. rewrite for_each_app.
  destruct (for_each txs1 tx_step []) as [es1|e]; simpl; [|done].
  apply extraction_append.
Qed.

(** Every edge the extractor returns comes from one transaction of the
    batch: its source is the non-empty [addr] of the [prev_out] of an input
    of that transaction, its destination is the non-empty [addr] of an
    output of the same transaction whose value in BTC is positive, and its
    weight is that value divided by the number of resolvable input
    addresses of the transaction, which is at least one. *)
Theorem extracted_edges_resolved (txs : list tx) (es : list edge) :
  address_edges_from_txs txs = Ok es ->
  Forall (fun e =>
            e.1.1 <> "" /\ e.1.2 <> ""
            /\ exists t i o val,
                 t ∈ txs
                 /\ i ∈ default [] (inputs t)
                 /\ prev_out i ≫= addr = Some e.1.1
                 /\ o ∈ default [] (out t)
                 /\ addr o = Some e.1.2
                 /\ int_truediv (default 0%Z (value o)) 1e8 = Ok val
                 /\ positive_float val = true
                 /\ 1 <= length (tx_inputs t)
                 /\ e.2 = (val / float_of_len (length (tx_inputs t)))%float) es.
Proof.
  unfold address_edges_from_txs. revert es.
  induction txs as [|t txs IH]; intros es; simpl; [by intros [= <-]|].
  destruct (tx_step t []) as [es1|e] eqn:Ht; simpl; [|done].
  rewrite extraction_append.
  destruct (for_each txs tx_step []) as [es2|e] eqn:Htxs; simpl; [|done].
  intros [= <-]. apply Forall_app. split.
  2:{ eapply Forall_impl; [by apply IH|].
      intros e (Hu & Hv & t' & i & o & val & Ht' & Hrest).
      split; [done|]. split; [done|]. exists t', i, o, val.
      split; [apply elem_of_cons; by right | done]. }
  unfold tx_step in Ht. destruct (tx_outs t) as [outs|e] eqn:Houts; [|done].
  assert (Hes1 := tx_step_pairs t outs Houts).
  unfold tx_step in Hes1. rewrite Houts in Hes1. simpl in Ht, Hes1.
  rewrite Ht in Hes1. injection Hes1 as ->.
  apply Forall_forall. intros e He.
  apply list_elem_of_In, in_flat_map in He as (in_a & Hin & He).
  apply in_map_iff in He as (p & <- & Hp).
  apply list_elem_of_In in Hin, Hp. simpl.
  destruct (output_step_origin (default [] (out t)) [] outs Houts p Hp)
    as [Hnil%elem_of_nil | (o & Ho & Haddr & Hne & Hval & Hpos)]; [done|].
  assert (Hlen : 1 <= length (tx_inputs t))
    by (destruct (tx_inputs t); [by apply elem_of_nil in Hin | simpl; lia]).
  split; [by apply (tx_inputs_nonempty t)|]. split; [done|].
  pose proof Hin as Hin'. rewrite tx_inputs_spec in Hin'.
  apply list_elem_of_omap in Hin' as (i & Hi & Hprev).
  exists t, i, o, p.2.
  split; [apply elem_of_cons; by left|]. split; [done|].
  split.
  { unfold truthy in Hprev. destruct (prev_out i ≫= addr) as [s|]; [|done].
    destruct (decide (s = "")); [done|]. by injection Hprev as ->. }
  split; [done|]. split; [done|]. split; [done|]. split; [done|].
  split; [done|]. by rewrite Nat.max_r.
Qed.

Lemma extracted_edges_resolved_witness :
  address_edges_from_txs [tx_sparse; tx_AD_B]
  = Ok [("A", "B", 5e-08%float); ("A", "B", 1%float); ("D", "B", 1%float)]
  /\ Forall (fun e : edge =>
            e.1.1 <> "" /\ e.1.2 <> ""
            /\ exists t i o val,
                 t ∈ [tx_sparse; tx_AD_B]
                 /\ i ∈ default [] (inputs t)
                 /\ prev_out i ≫= addr = Some e.1.1
                 /\ o ∈ default [] (out t)
                 /\ addr o = Some e.1.2
                 /\ int_truediv (default 0%Z (value o)) 1e8 = Ok val
                 /\ positive_float val = true
                 /\ 1 <= length (tx_inputs t)
                 /\ e.2 = (val / float_of_len (length (tx_inputs t)))%float)
         [("A", "B", 5e-08%float); ("A", "B", 1%float); ("D", "B", 1%float)].
Proof.
  split; [vm_compute; reflexivity|].
  apply (extracted_edges_resolved [tx_sparse; tx_AD_B]). vm_compute; reflexivity.
Defined.

(** On a batch of transaction records as the data model has them (lists
    of objects, each field missing, [null] or of its JSON type), the
    extractor raises exactly when some output of the batch carries a value
    too large to convert to a float, whether or not that output has an
    address, and what it raises is then [OverflowError].  Bodies outside
    the data model, such as a [null] under ["inputs"] or ["out"] or a
    [null] list item, are not covered. *)
Theorem extraction_raises_iff (txs : list tx) :
  ((exists e, address_edges_from_txs txs = Raise e)
   <-> exists t o v, t ∈ txs /\ o ∈ default [] (out t) /\ value o = Some v
                     /\ float_of_int v = Raise OverflowError)
  /\ forall e, address_edges_from_txs txs = Raise e -> e = OverflowError.
Proof.
  pose proof (extraction_raise_inv txs) as Hinv.
  split; [split|].
  - intros [e He]. destruct (Hinv e He) as (-> & Hex). exact Hex.
  - intros (t & o & v & Ht & Ho & Hv & Hconv).
    exists OverflowError. by apply (extraction_raises txs t o v).
  - intros e He. by destruct (Hinv e He).
Qed.

Lemma extraction_raises_iff_witness :
  address_edges_from_txs [tx_A_BC; tx_huge] = Raise OverflowError
  /\ exists e, address_edges_from_txs [tx_A_BC; tx_huge] = Raise e.
Proof.
  split; [vm_compute; reflexivity|].
  apply (proj1 (extraction_raises_iff [tx_A_BC; tx_huge])).
  exists tx_huge, (mk_out "B" (2 ^ 1024)), (2 ^ 1024)%Z.
  split; [set_solver|]. split; [set_solver|]. split; [reflexivity|].
  vm_compute; reflexivity.
Defined.

(** ** More on the fetcher *)

(** A fetch of page size [limit >= 1] sends at most ceil(max_txs / limit)
    requests: the requests sent before the last one brought full pages and
    still fewer than [max_txs] records.  With [max_txs = 0] no request is
    sent at all and the empty list is returned. *)
Theorem fetch_request_count (net : network) (address : address)
    (limit_each max_txs fuel : nat) (http : list request) :
  0 < limit_each -> max_txs < fuel ->
  let limit := min limit_each 50 in
  exists k r,
    fetch_txs_blockchain_info net fuel address limit_each max_txs http
    = (Some r, http ++ map (nth_request address limit) (seq 0 k))
    /\ k * limit < max_txs + limit
    /\ (max_txs = 0 -> k = 0 /\ r = Ok []).
Proof.
  intros Hlimit Hfuel limit.
  assert (Hpos : 0 < limit) by (subst limit; lia).
  destruct (fetch_loop_spec net address limit max_txs http Hpos fuel 0)
    as (k & r & Hrun & Hneeded & Hends); [lia | intros; lia |].
  exists k, r. cbn [received seq map Nat.mul] in Hrun.
  rewrite app_nil_r in Hrun. split; [exact Hrun|].
  assert (Hk : k * limit < max_txs + limit).
  { destruct k as [|k]; [lia|].
    destruct (Hneeded k (Nat.lt_succ_diag_r k)) as [Hlt Hfull].
    pose proof (received_full net address limit http Hpos k Hfull) as Hlen.
    unfold needed in Hlt. simpl. lia. }
  split; [exact Hk|]. intros ->.
  assert (k = 0) as -> by nia. split; [done|].
  destruct r as [txs|e]; simpl in Hends.
  - destruct Hends as (-> & _). done.
  - destruct Hends as (k' & ? & _). done.
Qed.

Lemma fetch_request_count_witness :
  exists k r,
    fetch_txs_blockchain_info (ledger_paged (replicate 120 tx_AD_B)) 101 "A" 50
      100 []
    = (Some r, [] ++ map (nth_request "A" (min 50 50)) (seq 0 k))
    /\ k * min 50 50 < 100 + min 50 50
    /\ (100 = 0 -> k = 0 /\ r = Ok []).
Proof.
  apply (fetch_request_count (ledger_paged (replicate 120 tx_AD_B)) "A" 50 100
           101 []); lia.
Defined.

(** With a page size of 0 no page is ever short: against a service that
    keeps answering with empty pages, a fetch for [max_txs >= 1] records
    never ends; every iteration sends one more request with limit 0 and
    offset 0. *)
Theorem fetch_page_size_zero_never_ends (net : network) (address : address)
    (max_txs fuel : nat) (http : list request) :
  0 < max_txs -> (forall n r, net n r = Body (Some [])) ->
  fetch_txs_blockchain_info net fuel address 0 max_txs http
  = (None,
     http ++ replicate fuel
               {| req_address := address; req_limit := 0; req_offset := 0 |}).
Proof.
  intros Hmax Hnet. unfold fetch_txs_blockchain_info.
  change (min 0 50) with 0.
  revert http. induction fuel as [|fuel IH]; intros http; simpl.
  - by rewrite app_nil_r.
  - rewrite bool_decide_eq_true_2 by (simpl; lia).
    rewrite Hnet. simpl.
    rewrite IH. by rewrite <- app_assoc.
Qed.

Lemma fetch_page_size_zero_never_ends_witness :
  fetch_txs_blockchain_info ledger_empty 3 "A" 0 200 []
  = (None,
     [] ++ replicate 3 {| req_address := "A"; req_limit := 0; req_offset := 0 |}).
Proof.
  apply (fetch_page_size_zero_never_ends ledger_empty "A" 200 3 []);
    [lia | reflexivity].
Defined.

(** ** More on the crawler *)

Section CrawlerMore.
Variable cfg : config.
Variable net : network.
Variable order : set_order.

Local Abbreviation step := (step cfg net order).
Local Abbreviation guard := (guard cfg).
Local Abbreviation crawl_steps := (crawl_steps cfg net order).
Local Abbreviation crawl_loop := (crawl_loop cfg net order).
Local Abbreviation expanded := (expanded cfg order).
Local Abbreviation neighbours := (neighbours cfg).

(** The requests of one fetch of the crawler. *)
Lemma fetch_trace addr http0 r http' :
  fetch_txs_blockchain_info net (S (MAX_TX_PER_ADDRESS cfg)) addr 50
    (MAX_TX_PER_ADDRESS cfg) http0 = (Some r, http') ->
  exists k,
    http' = http0 ++ map (nth_request addr 50) (seq 0 k)
    /\ k * 50 < MAX_TX_PER_ADDRESS cfg + 50.
Proof.
  intros Hfetch.
  assert (Hpos : 0 < 50) by lia.
  destruct (fetch_loop_spec net addr 50 (MAX_TX_PER_ADDRESS cfg) http0 Hpos
              (S (MAX_TX_PER_ADDRESS cfg)) 0)
    as (k & r' & Hrun & Hneeded & _); [lia | intros; lia |].
  cbn [received seq map Nat.mul] in Hrun. rewrite app_nil_r in Hrun.
  unfold fetch_txs_blockchain_info in Hfetch. change (min 50 50) with 50 in Hfetch.
  rewrite Hrun in Hfetch. injection Hfetch as _ <-.
  exists k. split; [done|].
  destruct k as [|k]; [lia|].
  destruct (Hneeded k (Nat.lt_succ_diag_r k)) as [Hlt Hfull].
  pose proof (received_full net addr 50 http0 Hpos k Hfull) as Hlen.
  simpl. lia.
Qed.

Lemma posted_nonempty `{Countable K} (k : K) (ps : list (K * float)) :
  posted k ps <> [] <-> exists w, (k, w) ∈ ps.
Proof.
  induction ps as [|[k' w'] ps IH].
  - split; [done | by intros [w ?%elem_of_nil]].
  - rewrite posted_cons. destruct (decide (k' = k)) as [-> | Hne].
    + split; [|done]. intros _. exists w'. apply elem_of_cons. by left.
    + rewrite IH. split.
      * intros [w Hw]. exists w. apply elem_of_cons. by right.
      * intros [w [[= -> ->] | Hw]%elem_of_cons]; [done | by exists w].
Qed.

Lemma pair_weights_nonempty u v es :
  pair_weights u v es <> [] <-> exists w, (u, v, w) ∈ es.
Proof.
  unfold pair_weights. rewrite posted_nonempty. unfold edge_postings. split.
  - intros [w ([[u' v'] w'] & [= -> -> ->] & He)%list_elem_of_fmap]. by exists w'.
  - intros [w Hw]. exists w.
    apply list_elem_of_fmap. by exists (u, v, w).
Qed.

Lemma node_weights_nonempty a es :
  node_weights a es <> []
  <-> exists u v w, (u, v, w) ∈ es /\ (a = u \/ a = v).
Proof.
  unfold node_weights. rewrite posted_nonempty. unfold node_postings. split.
  - intros [w Hw]. apply list_elem_of_In, in_flat_map in Hw as ([[u v] w'] & He & Hw).
    apply list_elem_of_In in He. exists u, v, w'. split; [done|].
    simpl in Hw. destruct Hw as [[= <- _] | [[= <- _] | []]]; auto.
  - intros (u & v & w & He & Ha). exists w.
    apply list_elem_of_In, in_flat_map. exists (u, v, w).
    split; [by apply list_elem_of_In|]. simpl.
    destruct Ha as [-> | ->]; auto.
Qed.

Lemma write_edges_fold_nodes_exact (l : list ((address * address) * float)) G0 a :
  a ∈ nodes
        (fold_left
           (fun G '((u, v), w) =>
              let G := if has_node u G then G else add_node u G in
              let G := if has_node v G then G else add_node v G in
              add_edge u v w G) l G0)
  <-> a ∈ nodes G0 \/ exists u v w, (u, v, w) ∈ l /\ (a = u \/ a = v).
Proof.
  revert G0. induction l as [|[[u0 v0] w0] l IH]; intros G0.
  - simpl. split; [by left|]. intros [? | (u & v & w & ?%elem_of_nil & _)]; done.
  - cbn [fold_left]. rewrite IH.
    assert (Hnodes : forall b,
      b ∈ nodes (add_edge u0 v0 w0
                   (if has_node v0 (if has_node u0 G0 then G0 else add_node u0 G0)
                    then (if has_node u0 G0 then G0 else add_node u0 G0)
                    else add_node v0 (if has_node u0 G0 then G0 else add_node u0 G0)))
      <-> b ∈ nodes G0 \/ b = u0 \/ b = v0).
    { intros b. destruct (has_node u0 G0), (has_node v0 _); simpl; set_solver. }
    rewrite Hnodes. split.
    + intros [[? | Hb] | (u & v & w & Hin & Hb)]; [by left | |].
      * right. exists u0, v0, w0. split; [|done]. apply elem_of_cons. by left.
      * right. exists u, v, w. split; [|done]. apply elem_of_cons. by right.
    + intros [? | (u & v & w & [[= -> -> ->] | Hin]%elem_of_cons & Hb)].
      * by left; left.
      * by left; right.
      * right. by exists u, v, w.
Qed.

(** The nodes after the table is written: those before and both ends of
    every pair of the table. *)
Lemma write_edges_nodes_exact m G0 a :
  a ∈ nodes (write_edges m G0)
  <-> a ∈ nodes G0 \/ exists u v, is_Some (m !! (u, v)) /\ (a = u \/ a = v).
Proof.
  unfold write_edges. rewrite write_edges_fold_nodes_exact. split.
  - intros [? | (u & v & w & Hin%elem_of_map_to_list & Ha)]; [by left|].
    right. exists u, v. split; [by exists w | done].
  - intros [? | (u & v & [w Hw] & Ha)]; [by left|].
    right. exists u, v, w. split; [by apply elem_of_map_to_list | done].
Qed.

Lemma is_Some_dd_sum ws : is_Some (dd_sum ws) <-> ws <> [].
Proof.
  destruct ws as [|w ws]; simpl; split.
  - by intros [? ?].
  - by intros [].
  - done.
  - by eexists.
Qed.

(** The nodes are the visited addresses and the ends of the extracted
    edges, no more and no less. *)
Lemma nodes_exact_step st st' :
  tables_inv st ->
  (forall a, a ∈ nodes (G st)
             <-> a ∈ visited st
                 \/ exists u v w, (u, v, w) ∈ extracted st /\ (a = u \/ a = v)) ->
  step st = Some (Ok st') ->
  forall a, a ∈ nodes (G st')
            <-> a ∈ visited st'
                \/ exists u v w, (u, v, w) ∈ extracted st' /\ (a = u \/ a = v).
Proof.
  intros Htab Hnodes Hstep a.
  pose proof (tables_inv_step cfg net order st st' Htab Hstep) as (Hew' & _ & _).
  destruct (step_inv cfg net order st st' Hstep) as (addr & depth & q0 & Hq & Hcase).
  destruct Hcase as [[Hvis ->] | [(Hvis & http' & e & _ & ->)
                                 | (Hvis & http' & txs & es & _ & _ & ->)]].
  - apply Hnodes.
  - cbn [fetch_failed G visited extracted add_node nodes].
    rewrite !elem_of_union, elem_of_singleton, Hnodes. tauto.
  - revert Hew'. rewrite expanded_eq. cbv zeta. cbn [G visited extracted edge_w].
    intros Hew'. rewrite write_edges_nodes_exact.
    cbn [add_node nodes]. rewrite !elem_of_union, elem_of_singleton, Hnodes.
    split.
    + intros [[? | [? | (u & v & w & Hin & Ha)]] | (u & v & Hsome & Ha)].
      * by left; left.
      * by left; right.
      * right. exists u, v, w. split; [|done]. apply elem_of_app. by left.
      * right. rewrite Hew' in Hsome.
        apply is_Some_dd_sum, pair_weights_nonempty in Hsome as [w Hw].
        by exists u, v, w.
    + intros [[? | ?] | (u & v & w & Hin & Ha)].
      * by left; left.
      * by left; right; left.
      * right. exists u, v. split; [|done]. rewrite Hew'.
        apply is_Some_dd_sum, pair_weights_nonempty. by exists w.
Qed.

(** The frontier holds at most two depths, the smaller one first. *)
Lemma bfs_step st st' :
  (exists d l1 l2, q st = l1 ++ l2 /\ Forall (fun e => e.2 = d) l1
                   /\ Forall (fun e => e.2 = S d) l2) ->
  step st = Some (Ok st') ->
  exists d l1 l2, q st' = l1 ++ l2 /\ Forall (fun e => e.2 = d) l1
                  /\ Forall (fun e => e.2 = S d) l2.
Proof.
  intros (d & l1 & l2 & Hq & H1 & H2) Hstep.
  destruct (step_queue cfg net order st st' Hstep)
    as (addr & depth & q0 & new & Hq0 & -> & Hnew).
  assert (Hnew' : Forall (fun e : address * nat => e.2 = S depth) new).
  { eapply Forall_impl; [exact Hnew|]. intros e (_ & ? & _). lia. }
  rewrite Hq in Hq0. destruct l1 as [|e1 l1].
  - simpl in Hq0. subst l2. apply Forall_cons in H2 as [Hd H2]. simpl in Hd.
    exists (S d), q0, new. subst depth. by repeat split.
  - injection Hq0 as -> <-. apply Forall_cons in H1 as [Hd H1]. simpl in Hd.
    exists d, l1, (l2 ++ new). subst depth.
    split; [by rewrite app_assoc|]. split; [done|]. by apply Forall_app.
Qed.

(** Apart from the seed, an address reaches the frontier, and the fetcher,
    only as the destination of an extracted edge. *)
Lemma origin_step seed st st' :
  Forall (fun e => e = (seed, 0) \/ exists u w, (u, e.1, w) ∈ extracted st) (q st) ->
  Forall (fun a => a = seed \/ exists u w, (u, a, w) ∈ extracted st) (fetched st) ->
  step st = Some (Ok st') ->
  Forall (fun e => e = (seed, 0) \/ exists u w, (u, e.1, w) ∈ extracted st') (q st')
  /\ Forall (fun a => a = seed \/ exists u w, (u, a, w) ∈ extracted st') (fetched st').
Proof.
  intros Hq Hf Hstep.
  destruct (step_inv cfg net order st st' Hstep) as (addr & depth & q0 & Hq0 & Hcase).
  rewrite Hq0 in Hq. apply Forall_cons in Hq as [Hhead Hq].
  assert (Haddr : addr = seed \/ exists u w, (u, addr, w) ∈ extracted st).
  { destruct Hhead as [[= -> _] | ?]; [by left | by right]. }
  destruct Hcase as [[Hvis ->] | [(Hvis & http' & e & _ & ->)
                                 | (Hvis & http' & txs & es & _ & _ & ->)]].
  - done.
  - split; [done|]. cbn [fetch_failed fetched extracted].
    apply Forall_app. split; [done|]. by constructor.
  - rewrite expanded_eq. cbv zeta. cbn [q fetched extracted].
    assert (Hold : forall b, (exists u w, (u, b, w) ∈ extracted st) ->
                             exists u w, (u, b, w) ∈ extracted st ++ es).
    { intros b (u & w & Hin). exists u, w. apply elem_of_app. by left. }
    split.
    + destruct (enqueue_spec cfg order
                  (write_edges (dd_add_all (edge_postings es) (edge_w st))
                     (add_node addr (G st)))
                  ({[addr]} ∪ visited st) depth (∅ ∪ neighbours depth es) q0)
        as (new & -> & Hnew).
      apply Forall_app. split.
      * eapply Forall_impl; [exact Hq|]. intros e0 [? | ?]; [by left|].
        right. by apply Hold.
      * eapply Forall_impl; [exact Hnew|]. intros e0 (Hin & _). right.
        rewrite elem_of_union in Hin.
        destruct Hin as [?%not_elem_of_empty | Hin]; [done|].
        unfold neighbours in Hin. case_bool_decide; [|by apply not_elem_of_empty in Hin].
        apply elem_of_list_to_set, list_elem_of_fmap in Hin as ([[u v] w] & Hv & He).
        simpl in Hv. subst v. exists u, w. apply elem_of_app. by right.
    + apply Forall_app. split.
      * eapply Forall_impl; [exact Hf|]. intros b [? | ?]; [by left|].
        right. by apply Hold.
      * constructor; [|done]. destruct Haddr as [? | ?]; [by left|].
        right. by apply Hold.
Qed.

(** Every request asks for a page of 50 of a fetched address, and an
    address costs at most ceil(MAX_TX_PER_ADDRESS / 50) requests. *)
Lemma requests_step st st' :
  Forall (fun r => req_limit r = 50 /\ req_address r ∈ fetched st) (http st) ->
  length (http st) <= length (fetched st) * ((MAX_TX_PER_ADDRESS cfg + 49) / 50) ->
  step st = Some (Ok st') ->
  Forall (fun r => req_limit r = 50 /\ req_address r ∈ fetched st') (http st')
  /\ length (http st')
     <= length (fetched st') * ((MAX_TX_PER_ADDRESS cfg + 49) / 50).
Proof.
  intros Hreq Hlen Hstep.
  destruct (step_inv cfg net order st st' Hstep) as (addr & depth & q0 & Hq0 & Hcase).
  assert (Hgrow : forall http' r,
    fetch_txs_blockchain_info net (S (MAX_TX_PER_ADDRESS cfg)) addr 50
      (MAX_TX_PER_ADDRESS cfg) (http st) = (Some r, http') ->
    Forall (fun r => req_limit r = 50 /\ req_address r ∈ fetched st ++ [addr]) http'
    /\ length http'
       <= length (fetched st ++ [addr]) * ((MAX_TX_PER_ADDRESS cfg + 49) / 50)).
  { intros http' r (k & -> & Hk)%fetch_trace. split.
    - apply Forall_app. split.
      + eapply Forall_impl; [exact Hreq|]. intros r0 [? ?]. split; [done|].
        apply elem_of_app. by left.
      + apply Forall_forall. intros r0 (i & -> & _)%list_elem_of_fmap. simpl.
        split; [done|]. apply elem_of_app. right. apply elem_of_cons. by left.
    - assert (Hper : k <= (MAX_TX_PER_ADDRESS cfg + 49) / 50)
        by (apply Nat.div_le_lower_bound; lia).
      rewrite !length_app, length_map, length_seq.
      change (length [addr]) with 1.
      rewrite Nat.mul_add_distr_r. lia. }
  destruct Hcase as [[Hvis ->] | [(Hvis & http' & e & Hfetch & ->)
                                 | (Hvis & http' & txs & es & Hfetch & _ & ->)]].
  - done.
  - by apply (Hgrow http' (Raise e)).
  - rewrite expanded_eq. cbv zeta. cbn [http fetched].
    by apply (Hgrow http' (Ok txs)).
Qed.

(** An iteration removes nothing: the graph, the visited set and the
    histories only grow. *)
Lemma grows_step st st' :
  step st = Some (Ok st') ->
  nodes (G st) ⊆ nodes (G st')
  /\ dom (edges (G st)) ⊆ dom (edges (G st'))
  /\ visited st ⊆ visited st'
  /\ extracted st `prefix_of` extracted st'
  /\ fetched st `prefix_of` fetched st'
  /\ http st `prefix_of` http st'
  /\ stdout st `prefix_of` stdout st'.
Proof.
  intros Hstep.
  destruct (step_inv cfg net order st st' Hstep) as (addr & depth & q0 & Hq0 & Hcase).
  destruct Hcase as [[Hvis ->] | [(Hvis & http' & e & Hfetch & ->)
                                 | (Hvis & http' & txs & es & Hfetch & _ & ->)]].
  - by repeat split.
  - apply fetch_trace in Hfetch as (k & -> & _).
    cbn [fetch_failed G visited extracted fetched http stdout add_node nodes edges].
    repeat split; try done; try set_solver; by apply prefix_app_r.
  - apply fetch_trace in Hfetch as (k & -> & _).
    rewrite expanded_eq. cbv zeta.
    cbn [G visited extracted fetched http stdout].
    split; [etrans; [|apply write_edges_nodes]; simpl; set_solver|].
    split; [rewrite write_edges_edges, dom_union_L; set_solver|].
    repeat split; try done; try set_solver; by apply prefix_app_r.
Qed.

Lemma grows_steps n : forall st st',
  crawl_steps n st = Some st' ->
  nodes (G st) ⊆ nodes (G st')
  /\ dom (edges (G st)) ⊆ dom (edges (G st'))
  /\ visited st ⊆ visited st'
  /\ extracted st `prefix_of` extracted st'
  /\ fetched st `prefix_of` fetched st'
  /\ http st `prefix_of` http st'
  /\ stdout st `prefix_of` stdout st'.
Proof.
  induction n as [|n IH]; intros st st'; simpl.
  - intros [= <-]. by repeat split.
  - destruct (guard st); [|done].
    destruct (step st) as [[st1|e]|] eqn:Hstep; [|done|done].
    intros Hsteps. apply grows_step in Hstep. apply IH in Hsteps.
    destruct Hstep as (? & ? & ? & ? & ? & ? & ?).
    destruct Hsteps as (? & ? & ? & ? & ? & ? & ?).
    repeat split; by etrans.
Qed.

(** What the loop returns, and what it can raise. *)
Lemma crawl_loop_result fuel : forall st r,
  crawl_loop fuel st = Some r ->
  match r with
  | Ok st' => q st' = [] \/ MAX_NODES cfg <= len (G st')
  | Raise e => e = OverflowError
  end.
Proof.
  assert (Hend : forall st, guard st = false ->
            q st = [] \/ MAX_NODES cfg <= len (G st)).
  { intros st [Hq | Hcap]%andb_false_iff.
    - left. by destruct (q st).
    - right. apply bool_decide_eq_false in Hcap. lia. }
  assert (Hraise : forall st e, step st = Some (Raise e) -> guard st = true ->
            e = OverflowError).
  { intros st e Hstep [Hq _]%andb_true_iff. revert Hstep. unfold step.
    destruct (q st) as [|[addr depth] q0]; [done|].
    case_bool_decide; [done|].
    destruct (fetch_txs_blockchain_info _ _ _ _ _ _) as [[[txs|e']|] http'];
      [|done|done].
    destruct (address_edges_from_txs txs) as [es|e'] eqn:Hes; [done|].
    intros [= <-]. by destruct (extraction_raise_inv txs e' Hes). }
  induction fuel as [|fuel IH]; intros st r; simpl.
  - destruct (guard st) eqn:Hguard; [done|]. intros [= <-]. by apply Hend.
  - destruct (guard st) eqn:Hguard; [|intros [= <-]; by apply Hend].
    destruct (step st) as [[st1|e]|] eqn:Hstep; [apply IH | | done].
    intros [= <-]. by apply (Hraise st).
Qed.

End CrawlerMore.

(** ** The requests of one address *)

Section Requests.
Variable cfg : config.
Variable net : network.
Variable order : set_order.

Lemma requests_of_fetch a addr s k :
  requests_of a (map (nth_request addr 50) (seq s k))
  = if decide (addr = a) then map (nth_request addr 50) (seq s k) else [].
Proof.
  unfold requests_of. revert s. induction k as [|k IH]; intros s; cbn [seq map].
  - by destruct (decide (addr = a)).
  - rewrite filter_cons. cbn [req_address nth_request]. rewrite IH.
    by destruct (decide (addr = a)).
Qed.

Lemma requests_of_none a http0 :
  Forall (fun r => req_address r <> a) http0 -> requests_of a http0 = [].
Proof.
  unfold requests_of. induction 1 as [|r l Hr _ IH]; [done|].
  rewrite filter_cons. by rewrite decide_False.
Qed.

(** The requests for one address are the pages 0, 1, 2, ... of one fetch. *)
Lemma requests_of_step st st' :
  visited_inv st ->
  Forall (fun r => req_limit r = 50 /\ req_address r ∈ fetched st) (http st) ->
  (forall a, exists k,
      requests_of a (http st) = map (nth_request a 50) (seq 0 k)
      /\ k <= (MAX_TX_PER_ADDRESS cfg + 49) / 50) ->
  step cfg net order st = Some (Ok st') ->
  forall a, exists k,
    requests_of a (http st') = map (nth_request a 50) (seq 0 k)
    /\ k <= (MAX_TX_PER_ADDRESS cfg + 49) / 50.
Proof.
  intros (_ & Hfet & _) Hreq Hper Hstep a.
  destruct (step_inv cfg net order st st' Hstep) as (addr & depth & q0 & Hq0 & Hcase).
  assert (Hgrow : forall http' r,
    addr ∉ visited st ->
    fetch_txs_blockchain_info net (S (MAX_TX_PER_ADDRESS cfg)) addr 50
      (MAX_TX_PER_ADDRESS cfg) (http st) = (Some r, http') ->
    exists k,
      requests_of a http' = map (nth_request a 50) (seq 0 k)
      /\ k <= (MAX_TX_PER_ADDRESS cfg + 49) / 50).
  { intros http' r Hvis (k & -> & Hk)%(fetch_trace cfg net).
    unfold requests_of. rewrite filter_app.
    fold (requests_of a (http st)).
    fold (requests_of a (map (nth_request addr 50) (seq 0 k))).
    rewrite requests_of_fetch.
    destruct (decide (addr = a)) as [<- | Hne].
    - rewrite requests_of_none.
      + exists k. split; [done|]. apply Nat.div_le_lower_bound; lia.
      + eapply Forall_impl; [exact Hreq|]. intros r0 [_ Hin] Heq.
        rewrite Heq in Hin. by apply Hvis, Hfet.
    - rewrite app_nil_r. apply Hper. }
  destruct Hcase as [[Hvis ->] | [(Hvis & http' & e & Hfetch & ->)
                                 | (Hvis & http' & txs & es & Hfetch & _ & ->)]].
  - apply Hper.
  - by apply (Hgrow http' (Raise e)).
  - rewrite expanded_eq. cbv zeta. cbn [http].
    by apply (Hgrow http' (Ok txs)).
Qed.

End Requests.

(** The loop of [crawl_graph] always ends, for every service whose answers
    are failures or lists of transaction records: with enough fuel it
    returns or raises, and more fuel changes nothing.  When it returns, the
    frontier is empty or the graph has [MAX_NODES] nodes or more. *)
Theorem crawl_loop_ends (cfg : config) (net : network) (order : set_order)
    (seed : address) :
  exists fuel r,
    (forall fuel', fuel <= fuel' ->
       crawl_loop cfg net order fuel' (init seed) = Some r)
    /\ forall st, r = Ok st -> q st = [] \/ MAX_NODES cfg <= len (G st).
Proof.
  destruct (crawl_loop_terminates_from cfg net order
              (MAX_NODES cfg - size (visited (init seed)))
              (length (q (init seed))) (init seed))
    as (fuel & r & Hloop); [apply visited_inv_init | done | done |].
  exists fuel, r. split.
  - intros fuel' Hle. by apply (crawl_loop_more_fuel cfg net order fuel).
  - intros st ->.
    apply (crawl_loop_result cfg net order fuel (init seed) (Ok st) Hloop).
Qed.

(** A crawl expands at most [MAX_NODES] addresses: neither the visited set
    nor the list of addresses passed to the fetcher ever gets larger, even
    though the graph itself may. *)
Theorem crawl_expands_at_most_MAX_NODES (cfg : config) (net : network)
    (order : set_order) (seed : address) (n : nat) (st : state) :
  crawl_steps cfg net order n (init seed) = Some st ->
  size (visited st) <= MAX_NODES cfg /\ length (fetched st) <= MAX_NODES cfg.
Proof.
  intros Hsteps.
  pose proof (visited_bounded cfg net order n seed st Hsteps) as Hsize.
  split; [exact Hsize|].
  assert (Hinv : visited_inv st).
  { apply (crawl_steps_invariant cfg net order visited_inv) with (n := n) (st := init seed);
      [|apply visited_inv_init|exact Hsteps].
    intros st0 st1 H0 _ Hstep. by apply (visited_inv_step cfg net order st0). }
  destruct Hinv as (_ & Hfet & Hnd).
  rewrite <- (size_list_to_set (C := gset address) (fetched st) Hnd).
  replace (list_to_set (fetched st) : gset address) with (visited st); [done|].
  apply set_eq. intros a. rewrite elem_of_list_to_set. symmetry. apply Hfet.
Qed.

Lemma crawl_expands_at_most_MAX_NODES_witness :
  exists st,
    crawl_steps two_nodes ledger_shared elements_order 1 (init "A") = Some st
    /\ len (G st) = 3
    /\ size (visited st) <= MAX_NODES two_nodes
    /\ length (fetched st) <= MAX_NODES two_nodes.
Proof.
  eexists. split; [vm_compute; reflexivity|].
  split; [vm_compute; reflexivity|].
  eapply (crawl_expands_at_most_MAX_NODES two_nodes ledger_shared
            elements_order "A" 1).
  vm_compute; reflexivity.
Defined.

(** At every point of the crawl the graph is exactly what was seen: its
    nodes are the visited addresses and both ends of every extracted edge,
    its edges are the pairs that got some weight, and the addresses with an
    amount are the ends of the extracted edges.  So every edge joins two
    nodes, and an address whose fetch failed is a node without amount unless
    some edge touches it. *)
Theorem graph_is_what_was_seen (cfg : config) (net : network)
    (order : set_order) (seed : address) (n : nat) (st : state) :
  crawl_steps cfg net order n (init seed) = Some st ->
  (forall a, a ∈ nodes (G st)
             <-> a ∈ visited st
                 \/ exists u v w, (u, v, w) ∈ extracted st /\ (a = u \/ a = v))
  /\ (forall u v, is_Some (edges (G st) !! (u, v))
                  <-> exists w, (u, v, w) ∈ extracted st)
  /\ (forall a, is_Some (node_amount st !! a)
                <-> exists u v w, (u, v, w) ∈ extracted st /\ (a = u \/ a = v))
  /\ (forall u v, is_Some (edges (G st) !! (u, v))
                  -> u ∈ nodes (G st) /\ v ∈ nodes (G st)).
Proof.
  intros Hsteps.
  assert (Hinv : tables_inv st
                 /\ forall a, a ∈ nodes (G st)
                     <-> a ∈ visited st
                         \/ exists u v w, (u, v, w) ∈ extracted st /\ (a = u \/ a = v)).
  { apply (crawl_steps_invariant cfg net order
             (fun st => tables_inv st
                        /\ forall a, a ∈ nodes (G st)
                            <-> a ∈ visited st
                                \/ exists u v w, (u, v, w) ∈ extracted st
                                                 /\ (a = u \/ a = v)))
      with (n := n) (st := init seed); [| |exact Hsteps].
    - intros st0 st1 [H0 H1] _ Hstep.
      split; [by apply (tables_inv_step cfg net order st0)|].
      by apply (nodes_exact_step cfg net order st0).
    - split; [apply tables_inv_init|]. intros a. simpl. split.
      + by intros ?%not_elem_of_empty.
      + intros [?%not_elem_of_empty | (u & v & w & ?%elem_of_nil & _)]; done. }
  destruct Hinv as [(Hew & Hna & Hedges) Hnodes].
  assert (Hpairs : forall u v, is_Some (edges (G st) !! (u, v))
                               <-> exists w, (u, v, w) ∈ extracted st).
  { intros u v. rewrite Hedges, Hew, is_Some_dd_sum. apply pair_weights_nonempty. }
  split; [exact Hnodes|]. split; [exact Hpairs|]. split.
  - intros a. rewrite Hna, is_Some_dd_sum. apply node_weights_nonempty.
  - intros u v [w Hw]%Hpairs. rewrite !Hnodes. split; right; exists u, v, w; auto.
Qed.

Lemma graph_is_what_was_seen_witness :
  exists st,
    crawl_steps default_config ledger_ABC elements_order 1 (init "A") = Some st
    /\ extracted st = [("A", "B", 1%float); ("A", "C", 0.5%float)]
    /\ (forall a, a ∈ nodes (G st)
                  <-> a ∈ visited st
                      \/ exists u v w, (u, v, w) ∈ extracted st /\ (a = u \/ a = v)).
Proof.
  eexists. split; [vm_compute; reflexivity|].
  split; [vm_compute; reflexivity|].
  eapply (graph_is_what_was_seen default_config ledger_ABC elements_order "A" 1).
  vm_compute; reflexivity.
Defined.

(** The crawl is breadth-first: at every point the frontier holds at most
    two depths, [d] and [d + 1], with every entry of depth [d] before every
    entry of depth [d + 1], so addresses are expanded in the order of their
    depth. *)
Theorem frontier_is_breadth_first (cfg : config) (net : network)
    (order : set_order) (seed : address) (n : nat) (st : state) :
  crawl_steps cfg net order n (init seed) = Some st ->
  exists d l1 l2,
    q st = l1 ++ l2
    /\ Forall (fun e => e.2 = d) l1 /\ Forall (fun e => e.2 = S d) l2.
Proof.
  apply (crawl_steps_invariant cfg net order
           (fun st => exists d l1 l2,
              q st = l1 ++ l2
              /\ Forall (fun e => e.2 = d) l1 /\ Forall (fun e => e.2 = S d) l2)).
  - intros st0 st1 H0 _ Hstep. by apply (bfs_step cfg net order st0).
  - exists 0, [(seed, 0)], []. by repeat constructor.
Qed.

Lemma frontier_is_breadth_first_witness :
  exists st,
    crawl_steps default_config ledger_shared elements_order 3 (init "A") = Some st
    /\ exists d l1 l2,
         q st = l1 ++ l2
         /\ Forall (fun e => e.2 = d) l1 /\ Forall (fun e => e.2 = S d) l2.
Proof.
  eexists. split; [vm_compute; reflexivity|].
  eapply (frontier_is_breadth_first default_config ledger_shared elements_order
            "A" 3).
  vm_compute; reflexivity.
Defined.

(** The crawl follows edges forwards only: apart from the seed, every
    address that is on the frontier or was passed to the fetcher is the
    destination of an extracted edge; an address seen only as a source is
    never expanded. *)
Theorem crawl_follows_destinations (cfg : config) (net : network)
    (order : set_order) (seed : address) (n : nat) (st : state) :
  crawl_steps cfg net order n (init seed) = Some st ->
  Forall (fun e => e = (seed, 0) \/ exists u w, (u, e.1, w) ∈ extracted st) (q st)
  /\ Forall (fun a => a = seed \/ exists u w, (u, a, w) ∈ extracted st) (fetched st).
Proof.
  apply (crawl_steps_invariant cfg net order
           (fun st =>
              Forall (fun e => e = (seed, 0) \/ exists u w, (u, e.1, w) ∈ extracted st)
                     (q st)
              /\ Forall (fun a => a = seed \/ exists u w, (u, a, w) ∈ extracted st)
                        (fetched st))).
  - intros st0 st1 [H0 H1] _ Hstep. by apply (origin_step cfg net order seed st0).
  - split; [|constructor]. constructor; [by left | constructor].
Qed.

Lemma crawl_follows_destinations_witness :
  exists st,
    crawl_steps default_config ledger_ABC elements_order 2 (init "A") = Some st
    /\ fetched st = ["A"; "C"]
    /\ q st = [("B", 1)]
    /\ Forall (fun e => e = ("A", 0) \/ exists u w, (u, e.1, w) ∈ extracted st) (q st)
    /\ Forall (fun a => a = "A" \/ exists u w, (u, a, w) ∈ extracted st) (fetched st).
Proof.
  eexists. split; [vm_compute; reflexivity|].
  split; [vm_compute; reflexivity|].
  split; [vm_compute; reflexivity|].
  eapply (crawl_follows_destinations default_config ledger_ABC elements_order
            "A" 2).
  vm_compute; reflexivity.
Defined.

(** Every request of a crawl asks for a page of 50 transactions of an
    address that was passed to the fetcher.  The requests that name one
    address are the pages at the offsets 0, 50, 100, ... of a single fetch,
    at most ceil(MAX_TX_PER_ADDRESS / 50) of them; so a crawl sends at most
    that many requests per fetched address, and at most MAX_NODES times that
    many in all. *)
Theorem crawl_request_budget (cfg : config) (net : network)
    (order : set_order) (seed : address) (n : nat) (st : state) :
  crawl_steps cfg net order n (init seed) = Some st ->
  Forall (fun r => req_limit r = 50 /\ req_address r ∈ fetched st) (http st)
  /\ (forall a, exists k,
        requests_of a (http st) = map (nth_request a 50) (seq 0 k)
        /\ k <= (MAX_TX_PER_ADDRESS cfg + 49) / 50)
  /\ length (http st) <= length (fetched st) * ((MAX_TX_PER_ADDRESS cfg + 49) / 50)
  /\ length (http st) <= MAX_NODES cfg * ((MAX_TX_PER_ADDRESS cfg + 49) / 50).
Proof.
  intros Hsteps.
  pose (P := fun st : state =>
    visited_inv st
    /\ (Forall (fun r => req_limit r = 50 /\ req_address r ∈ fetched st) (http st)
        /\ length (http st)
           <= length (fetched st) * ((MAX_TX_PER_ADDRESS cfg + 49) / 50))
    /\ (forall a, exists k,
          requests_of a (http st) = map (nth_request a 50) (seq 0 k)
          /\ k <= (MAX_TX_PER_ADDRESS cfg + 49) / 50)).
  assert (Hinv : P st).
  { apply (crawl_steps_invariant cfg net order P) with (n := n) (st := init seed);
      [| |exact Hsteps].
    - intros st0 st1 (Hv & [Hreq Hlen] & Hper) _ Hstep.
      split; [by apply (visited_inv_step cfg net order st0)|].
      split; [by apply (requests_step cfg net order st0)|].
      by apply (requests_of_step cfg net order st0).
    - split; [apply visited_inv_init|].
      split; [split; [constructor | simpl; lia]|].
      intros a. exists 0. split; [done | lia]. }
  destruct Hinv as ((_ & Hfet & Hnd) & [Hreq Hlen] & Hper).
  split; [exact Hreq|]. split; [exact Hper|]. split; [exact Hlen|].
  assert (Hfetched : length (fetched st) <= MAX_NODES cfg).
  { pose proof (visited_bounded cfg net order n seed st Hsteps) as Hsize.
    rewrite <- (size_list_to_set (C := gset address) (fetched st) Hnd).
    replace (list_to_set (fetched st) : gset address) with (visited st); [done|].
    apply set_eq. intros a. rewrite elem_of_list_to_set. symmetry. apply Hfet. }
  etrans; [exact Hlen|]. by apply Nat.mul_le_mono_r.
Qed.

Lemma crawl_request_budget_witness :
  exists st,
    crawl_steps three_pages (ledger_paged (repeat tx_blank 130)) elements_order 1
      (init "A") = Some st
    /\ http st = map (nth_request "A" 50) (seq 0 3)
    /\ (MAX_TX_PER_ADDRESS three_pages + 49) / 50 = 3
    /\ Forall (fun r => req_limit r = 50 /\ req_address r ∈ fetched st) (http st)
    /\ (exists k,
          requests_of "A" (http st) = map (nth_request "A" 50) (seq 0 k)
          /\ k <= (MAX_TX_PER_ADDRESS three_pages + 49) / 50)
    /\ length (http st)
       <= MAX_NODES three_pages * ((MAX_TX_PER_ADDRESS three_pages + 49) / 50).
Proof.
  eexists. split; [vm_compute; reflexivity|].
  split; [vm_compute; reflexivity|].
  split; [vm_compute; reflexivity|].
  destruct (crawl_request_budget three_pages (ledger_paged (repeat tx_blank 130))
              elements_order "A" 1 _ eq_refl) as (H1 & H2 & _ & H4).
  split; [exact H1|]. split; [exact (H2 "A") | exact H4].
Defined.

(** Nothing is ever taken back: from any state, after any number of
    iterations, the graph has the nodes and edges it had, the visited set
    contains the old one, and the extracted edges, the fetched addresses,
    the requests and the warnings continue the old lists. *)
Theorem crawl_only_grows (cfg : config) (net : network) (order : set_order)
    (n : nat) (st st' : state) :
  crawl_steps cfg net order n st = Some st' ->
  nodes (G st) ⊆ nodes (G st')
  /\ dom (edges (G st)) ⊆ dom (edges (G st'))
  /\ visited st ⊆ visited st'
  /\ extracted st `prefix_of` extracted st'
  /\ fetched st `prefix_of` fetched st'
  /\ http st `prefix_of` http st'
  /\ stdout st `prefix_of` stdout st'.
Proof. apply grows_steps. Qed.

Lemma crawl_only_grows_witness :
  exists st st',
    crawl_steps default_config ledger_ABC elements_order 1 (init "A") = Some st
    /\ crawl_steps default_config ledger_ABC elements_order 2 st = Some st'
    /\ nodes (G st) ⊆ nodes (G st')
    /\ dom (edges (G st)) ⊆ dom (edges (G st'))
    /\ visited st ⊆ visited st'
    /\ extracted st `prefix_of` extracted st'
    /\ fetched st `prefix_of` fetched st'
    /\ http st `prefix_of` http st'
    /\ stdout st `prefix_of` stdout st'.
Proof.
  eexists _, _. split; [vm_compute; reflexivity|].
  split; [vm_compute; reflexivity|].
  eapply (crawl_only_grows default_config ledger_ABC elements_order 2).
  vm_compute; reflexivity.
Defined.

(** An oversized value stops the whole crawl: if the transactions fetched
    for the seed hold an output whose value does not convert to a float,
    [crawl_graph] raises [OverflowError] and returns no graph, since the
    extractor runs outside the [try] of lines 88-92. *)
Theorem oversized_value_aborts_crawl (cfg : config) (net : network)
    (order : set_order) (seed : address) (txs : list tx)
    (http' : list request) (t : tx) (o : output) (v : Z) (fuel : nat) :
  0 < MAX_NODES cfg ->
  fetch_txs_blockchain_info net (S (MAX_TX_PER_ADDRESS cfg)) seed 50
    (MAX_TX_PER_ADDRESS cfg) [] = (Some (Ok txs), http') ->
  t ∈ txs -> o ∈ default [] (out t) -> value o = Some v ->
  float_of_int v = Raise OverflowError ->
  crawl_graph cfg net order (S fuel) seed = Some (Raise OverflowError).
Proof.
  intros Hcap Hfetch Ht Ho Hv Hconv.
  pose proof (extraction_raises txs t o v Ht Ho Hv Hconv) as Hraise.
  unfold crawl_graph. cbn [crawl_loop].
  assert (Hguard : guard cfg (init seed) = true).
  { unfold guard. simpl. apply bool_decide_eq_true.
    unfold len. change (nodes empty_graph) with (∅ : gset address).
    rewrite size_empty. exact Hcap. }
  rewrite Hguard. unfold step. cbn [init q visited http].
  rewrite bool_decide_eq_false_2 by apply not_elem_of_empty.
  by rewrite Hfetch, Hraise.
Qed.

Lemma oversized_value_aborts_crawl_witness :
  crawl_graph default_config ledger_huge elements_order 1 "A"
  = Some (Raise OverflowError).
Proof.
  apply (oversized_value_aborts_crawl default_config ledger_huge elements_order
           "A" [tx_huge]
           [{| req_address := "A"; req_limit := 50; req_offset := 0 |}]
           tx_huge (mk_out "B" (2 ^ 1024)) (2 ^ 1024)%Z 0).
  - vm_compute. lia.
  - vm_compute. reflexivity.
  - set_solver.
  - set_solver.
  - reflexivity.
  - vm_compute. reflexivity.
Defined.

(** ** Drawing *)

Section Sampling.
Context {A : Type}.
Implicit Types (l : list A).

Lemma stride_length step skip l :
  skip < step ->
  step * length (stride step skip l) + skip + 1 <= length l + step
  /\ length l <= step * length (stride step skip l) + skip.
Proof.
  revert skip. induction l as [|x l IH]; intros skip Hskip; simpl.
  - lia.
  - destruct skip as [|skip]; simpl.
    + destruct (IH (step - 1)) as [IH1 IH2]; [lia|]. nia.
    + destruct (IH skip) as [IH1 IH2]; [lia|]. lia.
Qed.

Lemma stride_sublist step skip l : stride step skip l `sublist_of` l.
Proof.
  revert skip. induction l as [|x l IH]; intros skip; simpl; [done|].
  destruct skip as [|skip]; [apply sublist_skip | apply sublist_cons]; apply IH.
Qed.

Lemma stride_one l : stride 1 0 l = l.
Proof. induction l as [|x l IH]; simpl; [done | by rewrite IH]. Qed.

Lemma stride_head step l : head (stride step 0 l) = head l.
Proof. by destruct l. Qed.

End Sampling.

(** The edges [draw_graph] draws are a sample of the edges of the graph, in
    their order and starting with the first one.  The sample holds fewer
    than 16000 edges, not fewer than 8000: the stride is the whole part of
    [len(edges) / 8000], so below 16000 edges it is 1 and every edge is
    drawn. *)
Theorem sampled_edges_bounds {A : Type} (edges : list A) :
  sampled_edges edges `sublist_of` edges
  /\ length (sampled_edges edges) < 2 * draw_threshold
  /\ (length edges < 2 * draw_threshold -> sampled_edges edges = edges)
  /\ head (sampled_edges edges) = head edges.
Proof.
  unfold sampled_edges. case_bool_decide as Hlen; cbv zeta.
  - pose proof (Nat.div_mod_eq (length edges) draw_threshold) as Hdiv.
    pose proof (Nat.mod_upper_bound (length edges) draw_threshold) as Hmod.
    unfold draw_threshold in *.
    set (step := length edges / (8 * 1000)) in *.
    set (r := length edges mod (8 * 1000)) in *.
    assert (Hr : r < 8 * 1000) by (apply Hmod; lia).
    assert (Hstep : 1 <= step) by nia.
    replace (max 1 step) with step by lia.
    split; [apply stride_sublist|]. split; [|split; [|apply stride_head]].
    + destruct (stride_length step 0 edges) as [Hup _]; [lia|]. nia.
    + intros Hsmall. assert (step = 1) as -> by nia. apply stride_one.
  - unfold draw_threshold in *. split; [done|]. split; [lia|]. by split.
Qed.

Lemma sampled_edges_bounds_witness :
  length (sampled_edges (seq 0 (2 * draw_threshold + 1))) = draw_threshold + 1
  /\ sampled_edges (seq 0 10) = seq 0 10
  /\ length (sampled_edges (seq 0 10)) < 2 * draw_threshold.
Proof.
  split; [vm_compute; reflexivity|].
  split; [apply (sampled_edges_bounds (seq 0 10)); vm_compute; lia|].
  apply (sampled_edges_bounds (seq 0 10)).
Defined.
